(** * ArduinoApp (src/arduino/arduino.ts): toolchain invocation,
      preference loading and include-path reconciliation

    A shallow embedding of the class [ArduinoApp].  Parsed JSON documents are
    trees whose objects keep their properties in insertion order; the file
    system, the output channel, the notification service and the external
    process are an explicit world threaded through a state-and-exception
    monad.  Node's [path] module, [JSON.stringify] and [util.tryParseJSON]
    are interfaces (type classes), with a POSIX instance [Posix] of the
    former used to run the model on concrete inputs. *)

From Stdlib Require QArith.
From Stdlib Require Import ZArith Ascii String.
From stdpp Require Import base option list strings pretty gmap.

Local Open Scope string_scope.
Local Open Scope list_scope.

(** ** Outcomes of a call: normal completion or a thrown error *)

Inductive error :=
| UserError (key : string)            (* Logger.notifyAndThrowUserError *)
| TypeError (what : string)           (* raised by the JavaScript runtime *)
| SpawnRejected (code : option Z)     (* util.spawn rejected; [reason.code] *)
| CommandRejected (command : string)  (* vscode.commands.executeCommand rejected *)
| FsError (path : string).            (* fs.readFileSync failed *)

Inductive outcome (A : Type) :=
| Done (a : A)
| Throw (e : error).
Arguments Done {A} a.
Arguments Throw {A} e.

#[global] Instance outcome_ret : MRet outcome := fun _ a => Done a.
#[global] Instance outcome_bind : MBind outcome := fun _ _ f m =>
  match m with
  | Done a => f a
  | Throw e => Throw e
  end.

(** ** Parsed JSON values *)

#[warnings="-register-all"]
Inductive json :=
| JNull
| JBool (b : bool)
| JNum (q : QArith_base.Q)
| JStr (s : string)
| JArr (items : list json)
| JObj (fields : list (string * json)).

Abbreviation fields := (list (string * json)).

(** JavaScript truthiness of a JSON value ([!x], [x || y], [x && y]). *)
Definition truthy (v : json) : bool :=
  match v with
  | JNull => false
  | JBool b => b
  | JNum q => negb (Z.eqb (QArith_base.Qnum q) 0)
  | JStr s => negb (bool_decide (s = ""))
  | JArr _ | JObj _ => true
  end.

(** [o[k]] on an object: [None] is [undefined]. *)
Fixpoint lookup_field (k : string) (fs : fields) : option json :=
  match fs with
  | [] => None
  | (k', v) :: rest => if decide (k' = k) then Some v else lookup_field k rest
  end.

(** [o[k] = v]: an existing property keeps its place, a new one goes last. *)
Fixpoint assign_field (k : string) (v : json) (fs : fields) : fields :=
  match fs with
  | [] => [(k, v)]
  | (k', v') :: rest =>
      if decide (k' = k) then (k, v) :: rest
      else (k', v') :: assign_field k v rest
  end.

(** [x[k]] on any non-null value: only objects carry JSON properties. *)
Definition prop (k : string) (v : json) : option json :=
  match v with
  | JObj fs => lookup_field k fs
  | _ => None
  end.

(** [x || dflt] for a possibly undefined [x]. *)
Definition or_default (x : option json) (dflt : json) : json :=
  match x with
  | Some v => if truthy v then v else dflt
  | None => dflt
  end.

(** The code points of a string, as [for (... of s)] yields them. *)
Fixpoint chars (s : string) : list string :=
  match s with
  | EmptyString => []
  | String c rest => String c EmptyString :: chars rest
  end.

(** ** Node's [path] module *)

Class PathApi := {
  path_join : list string → string;
  path_dirname : string → string;
  path_normalize : string → string;
  path_resolve : string → string
}.

Section Reconcile.
Context `{PathApi}.

(** [path.resolve(path.normalize(p))], the deduplication key. *)
Definition resolved (p : string) : string := path_resolve (path_normalize p).

(** Resolving a resolved path changes nothing. *)
Definition resolve_stable : Prop := ∀ p, resolved (resolved p) = resolved p.

(** [util.getCppConfigPlatform()] *)
Variable platform : string.

Definition browseFlag : string := "limitSymbolsToIncludedHeaders".

(** [section.name === util.getCppConfigPlatform()] for a non-null section. *)
Definition named (section : json) : bool :=
  match prop "name" section with
  | Some (JStr n) => bool_decide (n = platform)
  | _ => false
  end.

(** Lines 146-147: [configSection.browse = configSection.browse || {}]
    followed by [configSection.browse.limitSymbolsToIncludedHeaders = false].
    The module is strict-mode code: creating a property on a primitive
    throws.  A property created on an array is not an index, so it does not
    belong to the JSON value of the array. *)
Definition forceBrowse (fs : fields) : outcome fields :=
  let browse := or_default (lookup_field "browse" fs) (JObj []) in
  match browse with
  | JObj bfs =>
      Done (assign_field "browse"
              (JObj (assign_field browseFlag (JBool false) bfs)) fs)
  | JArr _ => Done (assign_field "browse" browse fs)
  | _ => Throw (TypeError "cannot create property on a primitive")
  end.

(** Lines 142-149: the [forEach] over [deviceContext.configurations].
    [i] is the index of the head of [secs] in the whole array.  The result
    is the array after the callback ran on every element, and
    [configSection] as the loop leaves it: the index and the properties of
    the section it refers to.  The callback assigns [configSection] at every
    matching section, so a later match replaces an earlier one. *)
Fixpoint scanSections (i : nat) (secs : list json)
  : outcome (list json * option (nat * fields)) :=
  match secs with
  | [] => Done ([], None)
  | section :: rest =>
      match section with
      | JNull => Throw (TypeError "cannot read property of null")
      | JObj fs =>
          if named section then
            fs' ← forceBrowse fs;
            '(rest', later) ← scanSections (S i) rest;
            Done (JObj fs' :: rest',
                  match later with Some cs => Some cs | None => Some (i, fs') end)
          else
            '(rest', later) ← scanSections (S i) rest;
            Done (section :: rest', later)
      | _ =>
          '(rest', later) ← scanSections (S i) rest;
          Done (section :: rest', later)
      end
  end.

(** Lines 152-156: the section created when none matched. *)
Definition newSection : fields :=
  [("name", JStr platform);
   ("includePath", JArr []);
   ("browse", JObj [(browseFlag, JBool false)])].

(** Lines 163-167: the [for ... of] over the existing entries; [true] is
    the early [return].  [path.normalize] throws on a non-string. *)
Fixpoint alreadyListed (childLibPath : string) (existing : list json)
  : outcome bool :=
  match existing with
  | [] => Done false
  | JStr existingPath :: rest =>
      if decide (childLibPath = resolved existingPath) then Done true
      else alreadyListed childLibPath rest
  | _ :: _ => Throw (TypeError "path must be a string")
  end.

(** Lines 161-171: the callback of [libPaths.forEach] on one candidate,
    acting on the properties of [configSection]. *)
Definition addChildLibPath (childLibPath : string) (fs : fields)
  : outcome fields :=
  let childLibPath := resolved childLibPath in
  let fresh := Done (assign_field "includePath" (JArr [JStr childLibPath]) fs) in
  match lookup_field "includePath" fs with
  | Some (JArr (e :: l)) =>
      found ← alreadyListed childLibPath (e :: l);
      if found : bool then Done fs
      else Done (assign_field "includePath"
                   (JArr ((e :: l) ++ [JStr childLibPath])) fs)
  | Some (JStr (String c s)) =>
      (* a non-empty string has a length and iterates, but has no push *)
      found ← alreadyListed childLibPath (JStr <$> chars (String c s));
      if found : bool then Done fs
      else Throw (TypeError "includePath.push is not a function")
  | Some (JObj o) =>
      if truthy (or_default (lookup_field "length" o) JNull)
      then Throw (TypeError "includePath is not iterable")
      else fresh
  | _ => fresh
  end.

(** Lines 160-172: [libPaths.forEach]. *)
Fixpoint mergePaths (libPaths : list string) (fs : fields) : outcome fields :=
  match libPaths with
  | [] => Done fs
  | childLibPath :: rest =>
      fs' ← addChildLibPath childLibPath fs;
      mergePaths rest fs'
  end.

(** Lines 141-172 on the parsed document.  [configSection] aliases an
    element of the array, so the merged section is written back at its
    index.  A document that is an array gets [configurations] as a
    non-index property, which is not part of its JSON value: the section
    logic then runs on a fresh, empty sequence, where it cannot throw, and
    the value to serialise is the array as it was read. *)
Definition reconcile (libPaths : list string) (deviceContext : json)
  : outcome json :=
  match deviceContext with
  | JObj top =>
      match or_default (lookup_field "configurations" top) (JArr []) with
      | JArr secs =>
          '(secs, configSection) ← scanSections 0 secs;
          let '(secs, i, fs) :=
            match configSection with
            | Some (i, fs) => (secs, i, fs)
            | None => (secs ++ [JObj newSection], length secs, newSection)
            end in
          fs' ← mergePaths libPaths fs;
          Done (JObj (assign_field "configurations"
                        (JArr (<[i := JObj fs']> secs)) top))
      | _ => Throw (TypeError "configurations.forEach is not a function")
      end
  | JArr _ => Done deviceContext
  | _ => Throw (TypeError "cannot create property on a primitive")
  end.

End Reconcile.

(** ** The world outside the class *)

Inductive event :=
| NotifyUserError (key : string)             (* Logger.notify...UserError *)
| ChannelShow                                (* arduinoChannel.show() *)
| ChannelStart (message : string)            (* arduinoChannel.start *)
| ChannelEnd (message : string)              (* arduinoChannel.end *)
| ChannelError (message : string)            (* arduinoChannel.error *)
| CommandCompleted (command arg : string)    (* an awaited editor command *)
| Spawned (command : string) (streamed : bool) (args : list string).

Inductive process_result :=
| Exited (code : Z)
| LaunchFailed.

Record world := {
  files : gmap string string;               (* regular files and their text *)
  directories : gmap string (list string);  (* directories and their entries *)
  journal : list event;                     (* what was emitted, oldest first *)
  _preferences : option (gmap string string) (* ArduinoApp._preferences *)
}.

Record IArduinoSettings := {
  commandPath : string;
  packagePath : string;
  logLevel : string
}.

Record IPlatform := {
  package_name : string;      (* platform.package.name *)
  architecture : string;
  rootBoardPath : string
}.

Record IBoard := {
  platform : IPlatform;
  board : string
}.

Record IDeviceContext := {
  sketch : string;
  port : string
}.

(** What the class reads from its surroundings and never writes. *)
Record context := {
  _settings : IArduinoSettings;
  currentBoard : option IBoard;       (* this._boardManager.currentBoard *)
  dc : IDeviceContext;                (* DeviceContext.getIntance() *)
  rootPath : string;                  (* vscode.workspace.rootPath *)
  cppConfigPlatform : string;         (* util.getCppConfigPlatform() *)
  CPP_CONFIG_FILE : string;           (* constants.CPP_CONFIG_FILE *)
  EOL : string;                       (* os.EOL *)
  toolchain : string → list string → process_result;
  commandSucceeds : string → string → bool
}.

(** [JSON.stringify(_, null, 4)] and [util.tryParseJSON]; [None] is the falsy
    result of the latter. *)
Class JsonCodec := {
  JSON_stringify : json → string;
  tryParseJSON : string → option json
}.

(** ** The monad of the methods: state and exceptions *)

Definition App (A : Type) : Type := world → outcome A * world.

#[global] Instance App_ret : MRet App := fun _ a w => (Done a, w).
#[global] Instance App_bind : MBind App := fun _ _ f m w =>
  match m w with
  | (Done a, w') => f a w'
  | (Throw e, w') => (Throw e, w')
  end.

Definition throw {A} (e : error) : App A := fun w => (Throw e, w).

(** [promise.then(onFulfilled, onRejected)], awaited. *)
Definition then_ {A B} (m : App A) (onFulfilled : A → App B)
    (onRejected : error → App B) : App B := fun w =>
  match m w with
  | (Done a, w') => onFulfilled a w'
  | (Throw e, w') => onRejected e w'
  end.

(** Appends an event to the journal: a call into the output channel, the
    notification service, the editor or the process launcher. *)
Definition emit (e : event) : App unit := fun w =>
  (Done (), {| files := files w; directories := directories w;
               journal := journal w ++ [e]; _preferences := _preferences w |}).

(** Modelled from the spec: [util.fileExistsSync] is not in the sources; a
    path names a file exactly when the file store holds a text for it. *)
Definition fileExistsSync (p : string) : App bool := fun w =>
  (Done (bool_decide (is_Some (files w !! p))), w).

(** [fs.readFileSync(p, utf8)] throws when there is no such file. *)
Definition readFileSync (p : string) : App string := fun w =>
  match files w !! p with
  | Some text => (Done text, w)
  | None => (Throw (FsError p), w)
  end.

(** [fs.writeFileSync(p, text)] *)
Definition writeFileSync (p text : string) : App unit := fun w =>
  (Done (), {| files := <[p := text]> (files w); directories := directories w;
               journal := journal w; _preferences := _preferences w |}).

(** Modelled from the spec: [util.directoryExistsSync] is not in the
    sources; it tells whether the path names a directory. *)
Definition directoryExistsSync (p : string) : App bool := fun w =>
  (Done (bool_decide (is_Some (directories w !! p))), w).

(** [fs.readdirSync(p)] *)
Definition readdirSync (p : string) : App (list string) := fun w =>
  match directories w !! p with
  | Some entries => (Done entries, w)
  | None => (Throw (FsError p), w)
  end.

(** Modelled from the spec: [util.mkdirRecursivelySync] is not in the
    sources; it ensures that the directory exists. *)
Definition mkdirRecursivelySync (p : string) : App unit := fun w =>
  (Done (), {| files := files w;
               directories := match directories w !! p with
                              | Some _ => directories w
                              | None => <[p := []]> (directories w)
                              end;
               journal := journal w; _preferences := _preferences w |}).

(** [this._preferences = m] and the read of [this._preferences]. *)
Definition set_preferences (m : gmap string string) : App unit := fun w =>
  (Done (), {| files := files w; directories := directories w;
               journal := journal w; _preferences := Some m |}).

Definition get_preferences : App (option (gmap string string)) := fun w =>
  (Done (_preferences w), w).

(** Modelled from the spec: [Logger.notifyUserError] is not in the sources;
    it performs the user-visible notification and returns. *)
Definition notifyUserError (key : string) : App unit :=
  emit (NotifyUserError key).

(** Modelled from the spec: [Logger.notifyAndThrowUserError] is not in the
    sources; it notifies the user and raises the error (a fatal,
    user-notified error). *)
Definition notifyAndThrowUserError {A} (key : string) : App A :=
  emit (NotifyUserError key);; throw (UserError key).

(** ** The preference line pattern [/(\S+)=(\S+)/] *)

(** [\s] on the characters of a byte string. *)
Definition is_space (c : ascii) : bool :=
  let n := nat_of_ascii c in
  bool_decide (n = 32 ∨ 9 ≤ n ≤ 13)%nat.

(** The maximal runs of non-space characters, in order. *)
Fixpoint words_go (cur : string) (s : string) : list string :=
  match s with
  | EmptyString => match cur with EmptyString => [] | _ => [String.rev cur] end
  | String c rest =>
      if is_space c then
        match cur with
        | EmptyString => words_go EmptyString rest
        | _ => String.rev cur :: words_go EmptyString rest
        end
      else words_go (String c cur) rest
  end.

Definition words (s : string) : list string := words_go EmptyString s.

(** The split of a run at its last [=] that has a character after it. *)
Fixpoint split_last_eq (t : string) : option (string * string) :=
  match t with
  | EmptyString => None
  | String c rest =>
      match split_last_eq rest with
      | Some (k, v) => Some (String c k, v)
      | None =>
          match rest with
          | String _ _ => if decide (c = "="%char) then Some (EmptyString, rest) else None
          | EmptyString => None
          end
      end
  end.

(** [lineRegex.exec(line)]: groups 1 and 2 of the leftmost match.  A match
    lies inside one run of non-space characters and, the first group being
    greedy, starts where the run starts and splits it at the last [=] that
    leaves both groups non-empty. *)
Fixpoint first_match (runs : list string) : option (string * string) :=
  match runs with
  | [] => None
  | t :: rest =>
      match split_last_eq t with
      | Some (String c k, v) => Some (String c k, v)
      | _ => first_match rest
      end
  end.

Definition lineRegex_exec (line : string) : option (string * string) :=
  first_match (words line).

(** [rawText.split(sep)] for a one-character separator. *)
Fixpoint split_char (sep : ascii) (s : string) : list string :=
  match s with
  | EmptyString => [EmptyString]
  | String c rest =>
      if decide (c = sep) then EmptyString :: split_char sep rest
      else match split_char sep rest with
           | [] => [String c EmptyString]
           | x :: xs => String c x :: xs
           end
  end.

Definition LF : ascii := ascii_of_nat 10.

(** ** The methods of [ArduinoApp] *)

Section ArduinoApp.
Context `{PathApi} `{JsonCodec}.
Variable this : context.

(** Modelled from the spec: [util.spawn] is not in the sources; it runs the
    external toolchain to completion and resolves on exit code 0, and
    rejects with a reason carrying the exit code on a non-zero exit or a
    launch failure (where there is no code to carry). *)
Definition spawn (command : string) (streamed : bool) (args : list string)
  : App unit :=
  emit (Spawned command streamed args);;
  match toolchain this command args with
  | Exited 0 => mret ()
  | Exited code => throw (SpawnRejected (Some code))
  | LaunchFailed => throw (SpawnRejected None)
  end.

(** [await vscode.commands.executeCommand(command, arg)] *)
Definition executeCommand (command arg : string) : App unit :=
  if commandSucceeds this command arg
  then emit (CommandCompleted command arg)
  else throw (CommandRejected command).

(** The text of [reason.code] in a template string. *)
Definition reason_code (reason : error) : string :=
  match reason with
  | SpawnRejected (Some code) => pretty code
  | _ => "undefined"
  end.

(** Line 266. *)
Definition boardString (boardDescriptor : IBoard) : string :=
  package_name (platform boardDescriptor) +:+ ":"
  +:+ architecture (platform boardDescriptor) +:+ ":"
  +:+ board boardDescriptor.

(** Lines 260-268. *)
Definition getBoardDescriptorString : App (option string) :=
  match currentBoard this with
  | None =>
      notifyUserError "getBoardDescriptorError";;
      mret None
  | Some boardDescriptor => mret (Some (boardString boardDescriptor))
  end.

Definition verbose_flag : list string :=
  if decide (logLevel (_settings this) = "verbose") then ["--verbose"] else [].

(** Lines 77-99. *)
Definition upload : App unit :=
  boardDescriptor ← getBoardDescriptorString;
  match boardDescriptor with
  | Some (String c s) =>
      let boardDescriptor := String c s in
      emit ChannelShow;;
      emit (ChannelStart ("Upload sketch - " +:+ sketch (dc this)));;
      executeCommand "arduino.closeSerialMonitor" (port (dc this));;
      let appPath := path_join [rootPath this; sketch (dc this)] in
      let args := ["--upload"; "--board"; boardDescriptor;
                   "--port"; port (dc this); appPath] ++ verbose_flag in
      then_ (spawn (commandPath (_settings this)) true args)
        (λ _, emit (ChannelEnd ("Uploaded the sketch: " +:+ sketch (dc this)
                                 +:+ EOL this)))
        (λ reason, emit (ChannelError ("Exit with code=" +:+ reason_code reason
                                        +:+ EOL this)))
  | _ => mret ()
  end.

(** Lines 101-119. *)
Definition verify : App unit :=
  boardDescriptor ← getBoardDescriptorString;
  match boardDescriptor with
  | Some (String c s) =>
      let boardDescriptor := String c s in
      emit (ChannelStart ("Verify sketch - " +:+ sketch (dc this)));;
      let appPath := path_join [rootPath this; sketch (dc this)] in
      let args := ["--verify"; "--board"; boardDescriptor;
                   "--port"; port (dc this); appPath] ++ verbose_flag in
      emit ChannelShow;;
      then_ (spawn (commandPath (_settings this)) true args)
        (λ _, emit (ChannelEnd ("Finished verify sketch - " +:+ sketch (dc this)
                                 +:+ EOL this)))
        (λ reason, emit (ChannelError ("Exit with code=" +:+ reason_code reason
                                        +:+ EOL this)))
  | _ => mret ()
  end.

(** [version && ":" + version] in a template string. *)
Definition version_suffix (version : string) : string :=
  match version with
  | EmptyString => ""
  | _ => ":" +:+ version
  end.

(** Lines 180-187. *)
Definition installBoard (packageName arch version : string)
    (showOutput : bool) : App unit :=
  emit ChannelShow;;
  emit (ChannelStart ("Install package - " +:+ packageName +:+ "..."));;
  spawn (commandPath (_settings this)) showOutput
    ["--install-boards"; packageName +:+ ":" +:+ arch +:+ version_suffix version];;
  emit (ChannelEnd ("Installed board package - " +:+ packageName +:+ EOL this)).

(** Lines 195-203. *)
Definition installLibrary (libName version : string) (showOutput : bool)
  : App unit :=
  emit ChannelShow;;
  emit (ChannelStart ("Install library - " +:+ libName));;
  spawn (commandPath (_settings this)) showOutput
    ["--install-library"; libName +:+ version_suffix version];;
  emit (ChannelEnd ("Installed libarray - " +:+ libName +:+ EOL this)).

(** Lines 211-227. *)
Definition getDefaultPackageLibPaths : App (list string) :=
  match currentBoard this with
  | None => mret []
  | Some boardDescriptor =>
      let toolsPath := rootBoardPath (platform boardDescriptor) in
      isDir ← directoryExistsSync (path_join [toolsPath; "cores"]);
      if isDir : bool then
        coreLibs ← readdirSync (path_join [toolsPath; "cores"]);
        mret ((λ coreLib, path_normalize (path_join [toolsPath; "cores"; coreLib]))
                <$> coreLibs)
      else mret []
  end.

(** Line 129. *)
Definition configFilePath : string :=
  path_join [rootPath this; CPP_CONFIG_FILE this].

(** Lines 129-174: the body of [addLibPath] once [libPaths] is known. *)
Definition addLibPaths (libPaths : list string) : App unit :=
  isFile ← fileExistsSync configFilePath;
  deviceContext ←
    (if isFile : bool then
       text ← readFileSync configFilePath;
       mret (tryParseJSON text)
     else
       mkdirRecursivelySync (path_dirname configFilePath);;
       mret (Some (JObj [])));
  deviceContext ←
    match deviceContext with
    | Some d => if truthy d then mret d
                else notifyAndThrowUserError "arduinoFileError"
    | None => notifyAndThrowUserError "arduinoFileError"
    end;
  match reconcile (cppConfigPlatform this) libPaths deviceContext with
  | Done deviceContext =>
      writeFileSync configFilePath (JSON_stringify deviceContext)
  | Throw e => throw e
  end.

(** Lines 121-175. *)
Definition addLibPath (libraryPath : string) : App unit :=
  libPaths ←
    match libraryPath with
    | String _ _ => mret [libraryPath]
    | EmptyString => getDefaultPackageLibPaths
    end;
  addLibPaths libPaths.

(** The document lines 130-139 hand to the rest of [addLibPath]: the empty
    object when there is no file, the parsed text when that is truthy, and
    nothing when the method throws. *)
Definition document_read (w : world) : option json :=
  match files w !! configFilePath with
  | Some text =>
      match tryParseJSON text with
      | Some d => if truthy d then Some d else None
      | None => None
      end
  | None => Some (JObj [])
  end.

(** Line 248: the preferences document. *)
Definition preferencesPath : string :=
  path_join [packagePath (_settings this); "preferences.txt"].

(** Lines 244-258. *)
Definition loadPreferences : App unit :=
  set_preferences ∅;;
  rawText ← readFileSync preferencesPath;
  let lines := split_char LF rawText in
  set_preferences
    (foldl (λ prefs line,
              match lineRegex_exec line with
              | Some (key, value) => <[key := value]> prefs
              | None => prefs
              end) ∅ lines).

(** Lines 229-234: the getter [preferences]. *)
Definition preferences : App (option (gmap string string)) :=
  cached ← get_preferences;
  match cached with
  | None => loadPreferences
  | Some _ => mret ()
  end;;
  get_preferences.

End ArduinoApp.

(** ** A POSIX instance of the [path] interface *)

Module Posix.

Definition isAbsolute (p : string) : bool :=
  match p with
  | String "/" _ => true
  | _ => false
  end.

Definition segments (p : string) : list string := split_char "/" p.

Fixpoint join_segments (segs : list string) : string :=
  match segs with
  | [] => ""
  | [seg] => seg
  | seg :: rest => seg +:+ "/" +:+ join_segments rest
  end.

(** One segment against the stack of kept segments, innermost first. *)
Definition keep (allowAboveRoot : bool) (stack : list string) (seg : string)
  : list string :=
  if decide (seg = "" ∨ seg = ".") then stack
  else if decide (seg = "..") then
    match stack with
    | top :: below =>
        if decide (top = "..") then
          if allowAboveRoot then ".." :: stack else stack
        else below
    | [] => if allowAboveRoot then [".."] else []
    end
  else seg :: stack.

Definition normalizeSegments (allowAboveRoot : bool) (segs : list string)
  : list string :=
  rev (foldl (keep allowAboveRoot) [] segs).

Definition normalizeString (allowAboveRoot : bool) (p : string) : string :=
  join_segments (normalizeSegments allowAboveRoot (segments p)).

Fixpoint endsWithSlash (p : string) : bool :=
  match p with
  | EmptyString => false
  | String c EmptyString => bool_decide (c = "/"%char)
  | String _ rest => endsWithSlash rest
  end.

Definition normalize (p : string) : string :=
  match p with
  | EmptyString => "."
  | _ =>
      let body := normalizeString (negb (isAbsolute p)) p in
      let body := match body with
                  | EmptyString => if isAbsolute p then "" else "."
                  | _ => body
                  end in
      let body := match body with
                  | EmptyString => ""
                  | _ => if endsWithSlash p then body +:+ "/" else body
                  end in
      if isAbsolute p then "/" +:+ body else body
  end.

Definition join (paths : list string) : string :=
  match join_segments (filter (λ p, p ≠ "") paths) with
  | EmptyString => "."
  | joined => normalize joined
  end.

(** [path.resolve(p)] in the working directory [cwd], an absolute path. *)
Definition resolve (cwd p : string) : string :=
  let full := if isAbsolute p then p
              else match p with
                   | EmptyString => cwd
                   | _ => cwd +:+ "/" +:+ p
                   end in
  "/" +:+ normalizeString false full.

Fixpoint drop_while (f : ascii → bool) (s : string) : string :=
  match s with
  | EmptyString => EmptyString
  | String c rest => if f c then drop_while f rest else s
  end.

Definition is_slash (c : ascii) : bool := bool_decide (c = "/"%char).

Definition dirname (p : string) : string :=
  match p with
  | EmptyString => "."
  | _ =>
      let upto_slash :=
        drop_while (λ c, negb (is_slash c)) (drop_while is_slash (String.rev p)) in
      match upto_slash with
      | EmptyString => if isAbsolute p then "/" else "."
      | String _ EmptyString => "/"
      | String _ (String "/" EmptyString) => "//"
      | String _ rest => String.rev rest
      end
  end.

#[export] Instance api (cwd : string) : PathApi := {|
  path_join := join;
  path_dirname := dirname;
  path_normalize := normalize;
  path_resolve := resolve cwd
|}.

(** A segment without separator, and one that normalisation keeps. *)
Fixpoint slash_free (s : string) : Prop :=
  match s with
  | EmptyString => True
  | String c rest => c ≠ "/"%char ∧ slash_free rest
  end.

Definition clean (seg : string) : Prop :=
  seg ≠ "" ∧ seg ≠ "." ∧ seg ≠ ".." ∧ slash_free seg.

End Posix.

(** ** A printer and a table-driven parser, to run the model on texts *)

Module Texts.

Definition quote : string := String (ascii_of_nat 34) EmptyString.

Definition render_number (q : QArith_base.Q) : string :=
  match QArith_base.Qden q with
  | 1%positive => pretty (QArith_base.Qnum q)
  | d => pretty (QArith_base.Qnum q) +:+ "/" +:+ pretty (Z.pos d)
  end.

(** A compact rendering of a document (strings are not escaped). *)
Fixpoint render (v : json) : string :=
  match v with
  | JNull => "null"
  | JBool true => "true"
  | JBool false => "false"
  | JNum q => render_number q
  | JStr s => quote +:+ s +:+ quote
  | JArr items =>
      "[" +:+ (fix go (l : list json) : string :=
                 match l with
                 | [] => ""
                 | [x] => render x
                 | x :: rest => render x +:+ "," +:+ go rest
                 end) items +:+ "]"
  | JObj fs =>
      "{" +:+ (fix go (l : fields) : string :=
                 match l with
                 | [] => ""
                 | [(k, x)] => quote +:+ k +:+ quote +:+ ":" +:+ render x
                 | (k, x) :: rest =>
                     quote +:+ k +:+ quote +:+ ":" +:+ render x +:+ "," +:+ go rest
                 end) fs +:+ "}"
  end.

(** A parser that knows the renderings of the documents in [known]. *)
Definition parse_known (known : list json) (text : string) : option json :=
  find (λ d, bool_decide (render d = text)) known.

Definition codec (known : list json) : JsonCodec := {|
  JSON_stringify := render;
  tryParseJSON := parse_known known
|}.

End Texts.

(** ** Notions used to state the properties *)

Section Notions.
Context `{PathApi}.
Variable platform : string.

(** The sequence the section scan runs over: [deviceContext.configurations]
    after line 141 (empty for a document without one). *)
Definition sections (d : json) : list json :=
  match d with
  | JObj top =>
      match or_default (lookup_field "configurations" top) (JArr []) with
      | JArr secs => secs
      | _ => []
      end
  | _ => []
  end.

(** The index of the first, and of the last, section carrying the platform's
    name. *)
Fixpoint first_named (secs : list json) : option nat :=
  match secs with
  | [] => None
  | s :: rest => if named platform s then Some 0 else S <$> first_named rest
  end.

Fixpoint last_named (secs : list json) : option nat :=
  match secs with
  | [] => None
  | s :: rest =>
      match last_named rest with
      | Some j => Some (S j)
      | None => if named platform s then Some 0 else None
      end
  end.

(** [configSection] after the scan of the sections [secs], whose head has
    index [i]: the last section with the platform's name. *)
Definition configSectionAt (i : nat) (secs : list json) : option (nat * fields) :=
  match last_named secs with
  | Some j =>
      match secs !! j with
      | Some (JObj fs) => Some (i + j, fs)
      | _ => None
      end
  | None => None
  end.

(** The candidate is found among the entries of the section's [includePath]
    (lines 162-167 reach the early return). *)
Definition listed (candidate : string) (fs : fields) : Prop :=
  match lookup_field "includePath" fs with
  | Some (JArr entries) => alreadyListed (resolved candidate) entries = Done true
  | Some (JStr s) =>
      alreadyListed (resolved candidate) (JStr <$> chars s) = Done true
  | _ => False
  end.

(** The [includePath] of a section as a list: the entries of the array,
    nothing when the property is missing or is not an array. *)
Definition includePath_of (section : json) : list json :=
  match prop "includePath" section with
  | Some (JArr entries) => entries
  | _ => []
  end.

(** The number of process invocations among events. *)
Definition is_spawn (e : event) : bool :=
  match e with
  | Spawned _ _ _ => true
  | _ => false
  end.

Definition spawns (events : list event) : nat :=
  length (List.filter is_spawn events).

(** The code a failed process hands to the rejection. *)
Definition failure_code (result : process_result) : option Z :=
  match result with
  | Exited code => Some code
  | LaunchFailed => None
  end.

(** What the scan's callback makes of one section. *)
Definition visited (s s' : json) : Prop :=
  s ≠ JNull ∧
  if named platform s
  then ∃ fs fs', s = JObj fs ∧ forceBrowse fs = Done fs' ∧ s' = JObj fs'
  else s' = s.

(** A section the callback leaves as it is. *)
Definition settled (s : json) : Prop := visited s s.

(** Deduplication as the specification words it: a candidate whose resolved
    form equals the resolved form of an entry is skipped, any other is
    appended, in its resolved form, at the end. *)
Definition spec_add (entries : list string) (candidate : string) : list string :=
  if bool_decide (Exists (λ e, resolved e = resolved candidate) entries)
  then entries
  else entries ++ [resolved candidate].

Definition spec_merge (entries candidates : list string) : list string :=
  foldl spec_add entries candidates.

(** A document and its reconciled version agree outside what the tool
    manages: every top-level property but [configurations]; every section in
    place, identical when its name is not the platform's; in a section with
    the platform's name every property but [includePath] and [browse], every
    property of an object [browse] but the flag, and [includePath] too
    unless the section is the last with that name. *)
Definition preserved (d d' : json) : Prop :=
  (∀ k, k ≠ "configurations" → prop k d' = prop k d) ∧
  ∀ j s, sections d !! j = Some s →
    ∃ s', sections d' !! j = Some s' ∧
      (named platform s = false → s' = s) ∧
      (∀ k, k ≠ "includePath" → k ≠ "browse" → prop k s' = prop k s) ∧
      (∀ b k, prop "browse" s = Some (JObj b) → k ≠ browseFlag →
              prop "browse" s' ≫= prop k = lookup_field k b) ∧
      (last_named (sections d) ≠ Some j →
       prop "includePath" s' = prop "includePath" s).

End Notions.

(** ** Concrete inputs *)

Module Sample.

Definition cwd : string := "/home/user/sketch".

Definition paths : PathApi := Posix.api cwd.

Definition section (name : string) (includePath : list string) : json :=
  JObj [("name", JStr name); ("includePath", JArr (JStr <$> includePath))].

(** One section for Linux, listing [/a]. *)
Definition linux_fields : fields :=
  [("name", JStr "Linux"); ("includePath", JArr [JStr "/a"])].

Definition document (configurations : list json) : json :=
  JObj [("version", JNum (QArith_base.Qmake 3 1));
        ("configurations", JArr configurations)].

(** Two sections carry the name Linux. *)
Definition twice_linux : json :=
  document [section "Mac" ["/m"]; section "Linux" ["/a"]; section "Linux" []].

(** A Linux section without [includePath]. *)
Definition bare_linux : json :=
  document [JObj [("name", JStr "Linux")]].

Definition once_linux : json :=
  document [section "Mac" ["/m"]; section "Linux" ["/a"]].

Definition settings : IArduinoSettings := {|
  commandPath := "/opt/arduino/arduino";
  packagePath := "/home/user/.arduino15";
  logLevel := "info"
|}.

Definition uno : IBoard := {|
  platform := {| package_name := "arduino"; architecture := "avr";
                 rootBoardPath := "/opt/arduino/hardware/arduino/avr" |};
  board := "uno"
|}.

(** A workspace on Linux where the toolchain exits with [code] and the
    editor commands succeed. *)
Definition app (selected : option IBoard) (code : Z) : context := {|
  _settings := settings;
  currentBoard := selected;
  dc := {| sketch := "blink.ino"; port := "/dev/ttyACM0" |};
  rootPath := cwd;
  cppConfigPlatform := "Linux";
  CPP_CONFIG_FILE := ".vscode/c_cpp_properties.json";
  EOL := String LF EmptyString;
  toolchain := λ _ _, Exited code;
  commandSucceeds := λ _ _, true
|}.

Definition configFile : string :=
  "/home/user/sketch/.vscode/c_cpp_properties.json".

Definition empty_world : world := {|
  files := ∅; directories := ∅; journal := []; _preferences := None
|}.

(** A world whose configuration file holds [text]. *)
Definition world_with (text : string) : world := {|
  files := {[ configFile := text ]};
  directories := {[ "/home/user/sketch/.vscode" := ["c_cpp_properties.json"] ]};
  journal := [];
  _preferences := None
|}.

End Sample.

(** ** Reconciled sample documents *)

Module Reconciled.
Import Sample.

Definition flagged : json := JObj [(browseFlag, JBool false)].

(** [once_linux] after [./lib] was added on Linux. *)
Definition once_linux_lib : json :=
  document [section "Mac" ["/m"];
            JObj [("name", JStr "Linux");
                  ("includePath", JArr [JStr "/a"; JStr "/home/user/sketch/lib"]);
                  ("browse", flagged)]].

(** [twice_linux] after [/b] was added on Linux. *)
Definition twice_linux_b : json :=
  document [section "Mac" ["/m"];
            JObj [("name", JStr "Linux"); ("includePath", JArr [JStr "/a"]);
                  ("browse", flagged)];
            JObj [("name", JStr "Linux"); ("includePath", JArr [JStr "/b"]);
                  ("browse", flagged)]].

(** The parser of the sample runs knows these texts. *)
Definition codec : JsonCodec :=
  Texts.codec [once_linux; once_linux_lib; twice_linux; twice_linux_b].

End Reconciled.

(** ** The remaining methods of [ArduinoApp] *)



Section Bootstrap.
Context `{PathApi}.
Variable this : context.

(** [try { await m; } catch (ex) { }] *)
Definition swallow (m : App unit) : App unit :=
  then_ m (λ _, mret ()) (λ _, mret ()).

(** Lines 40-48. *)
Definition initialize (force : bool) : App unit :=
  indexed ← fileExistsSync
              (path_join [packagePath (_settings this); "package_index.json"]);
  if force || negb indexed
  then swallow (installBoard this "dummy" "dummy" "" false)
  else mret ().

(** Lines 53-61. *)
Definition initializeLibrary : App unit :=
  indexed ← fileExistsSync
              (path_join [packagePath (_settings this); "library_index.json"]);
  if negb indexed
  then swallow (installLibrary this "dummy" "" false)
  else mret ().

(** Lines 68-75. *)
Definition setPref (key value : string) : App unit :=
  swallow (spawn this (commandPath (_settings this)) false
             ["--pref"; key +:+ "=" +:+ value]).



(** Lines 249-257: the map the lines of the preferences text fill, a later
    line replacing the value an earlier one set for the same key. *)
Definition parsePreferences (rawText : string) : gmap string string :=
  foldl (λ prefs line,
           match lineRegex_exec line with
           | Some (key, value) => <[key := value]> prefs
           | None => prefs
           end) ∅ (split_char LF rawText).

(** The argument vector of [verify] and [upload] (lines 90-93, 109-112). *)
Definition sketch_args (action : string) (boardDescriptor : IBoard) : list string :=
  [action; "--board"; boardString boardDescriptor;
   "--port"; port (dc this);
   path_join [rootPath this; sketch (dc this)]] ++ verbose_flag this.

(** The line the channel ends on: the given success line after exit code 0,
    the error line with the code otherwise. *)
Definition closing_line (result : process_result) (success : string) : event :=
  match result with
  | Exited 0 => ChannelEnd success
  | _ => ChannelError ("Exit with code="
                       +:+ reason_code (SpawnRejected (failure_code result))
                       +:+ EOL this)
  end.

End Bootstrap.

(** ** Documents of the expected shape *)

Section Shape.

(** A section as the configuration format has it: an object whose [browse],
    when present, is an object, and whose [includePath], when present, is an
    array of strings. *)
Definition typed_section (s : json) : Prop :=
  ∃ fs, s = JObj fs ∧
    (lookup_field "browse" fs = None ∨
     ∃ b, lookup_field "browse" fs = Some (JObj b)) ∧
    (lookup_field "includePath" fs = None ∨
     ∃ entries, lookup_field "includePath" fs = Some (JArr (JStr <$> entries))).

(** An object whose [configurations], when present, is an array of such
    sections. *)
Definition typed_document (d : json) : Prop :=
  ∃ top, d = JObj top ∧
    (lookup_field "configurations" top = None ∨
     ∃ secs, lookup_field "configurations" top = Some (JArr secs)) ∧
    Forall typed_section (sections d).

End Shape.



(** The pairs the lines of a preferences text yield, in the order of the
    lines; a line that does not match yields none. *)
Definition preferenceEntries (rawText : string) : list (string * string) :=
  omap lineRegex_exec (split_char LF rawText).

(** ** More concrete inputs *)

Module MoreSamples.
Import Sample.

(** The editor fails to close the serial monitor. *)
Definition monitor_stuck : context := {|
  _settings := settings;
  currentBoard := Some uno;
  dc := {| sketch := "blink.ino"; port := "/dev/ttyACM0" |};
  rootPath := cwd;
  cppConfigPlatform := "Linux";
  CPP_CONFIG_FILE := ".vscode/c_cpp_properties.json";
  EOL := String LF EmptyString;
  toolchain := λ _ _, Exited 0;
  commandSucceeds := λ _ _, false
|}.

Definition preferences_text : string :=
  "sketchbook.path=/home/user/Arduino" +:+ String LF
    "# a comment" +:+ String LF
    "board=uno" +:+ String LF
    "board=mega" +:+ String LF "".

(** The package directory holds both indexes and a preferences document. *)
Definition indexed_world : world := {|
  files := {[ "/home/user/.arduino15/package_index.json" := "{}";
              "/home/user/.arduino15/library_index.json" := "{}";
              "/home/user/.arduino15/preferences.txt" := preferences_text ]};
  directories := ∅;
  journal := [];
  _preferences := None
|}.

(** A document with a [null] among its configurations. *)
Definition null_section : fields :=
  [("configurations", JArr [section "Linux" ["/a"]; JNull])].

Definition codec : JsonCodec := Texts.codec [JObj null_section].

End MoreSamples.

(** * Properties *)

(** ** Objects *)

Lemma lookup_assign_eq k v fs : lookup_field k (assign_field k v fs) = Some v.
Proof.
  induction fs as [|[k' v'] fs IH]; simpl.
  - by rewrite decide_True.
  - destruct (decide (k' = k)) as [->|Hne]; simpl.
    + by rewrite decide_True.
    + by rewrite decide_False.
Qed.

Lemma lookup_assign_ne k k' v fs :
  k ≠ k' → lookup_field k' (assign_field k v fs) = lookup_field k' fs.
Proof.
  intros Hne. induction fs as [|[k0 v0] fs IH]; simpl.
  - by rewrite decide_False.
  - destruct (decide (k0 = k)) as [->|Hk0]; simpl.
    + by rewrite !(decide_False (P := k = k')).
    + by rewrite IH.
Qed.

Lemma assign_id k v fs : lookup_field k fs = Some v → assign_field k v fs = fs.
Proof.
  induction fs as [|[k0 v0] fs IH]; simpl; [done|].
  destruct (decide (k0 = k)) as [->|Hk0].
  - by intros [= ->].
  - intros Hl. by rewrite IH.
Qed.

Lemma assign_assign k v v' fs :
  assign_field k v (assign_field k v' fs) = assign_field k v fs.
Proof.
  induction fs as [|[k0 v0] fs IH]; simpl.
  - by rewrite decide_True.
  - destruct (decide (k0 = k)) as [->|Hk0]; simpl.
    + by rewrite decide_True.
    + by rewrite decide_False, IH.
Qed.

Section ReconcileFacts.
Context `{PathApi}.
Variable platform : string.

(** *** The browse flag *)

Lemma forceBrowse_other fs fs' k :
  forceBrowse fs = Done fs' → k ≠ "browse" →
  lookup_field k fs' = lookup_field k fs.
Proof.
  unfold forceBrowse. intros Hf Hk.
  destruct (or_default (lookup_field "browse" fs) (JObj [])); simplify_eq;
    by rewrite lookup_assign_ne.
Qed.

Lemma forceBrowse_again fs fs' :
  forceBrowse fs = Done fs' → forceBrowse fs' = Done fs'.
Proof.
  unfold forceBrowse. intros Hf.
  destruct (or_default (lookup_field "browse" fs) (JObj [])) eqn:Hb; simplify_eq.
  - rewrite lookup_assign_eq. simpl. by rewrite assign_assign.
  - rewrite lookup_assign_eq. simpl. by rewrite assign_assign, assign_assign.
Qed.

Lemma forceBrowse_named fs fs' :
  forceBrowse fs = Done fs' → named platform (JObj fs') = named platform (JObj fs).
Proof.
  intros Hf. unfold named. simpl.
  by rewrite (forceBrowse_other _ _ "name" Hf).
Qed.

End ReconcileFacts.

Section ScanFacts.
Context `{PathApi}.
Variable platform : string.

(** *** The section scan *)

Lemma named_object s : named platform s = true → ∃ fs, s = JObj fs.
Proof. destruct s; try discriminate. eauto. Qed.

Lemma last_named_lookup secs j :
  last_named platform secs = Some j →
  ∃ fs, secs !! j = Some (JObj fs) ∧ named platform (JObj fs) = true.
Proof.
  revert j. induction secs as [|s rest IH]; intros j; simpl; [done|].
  destruct (last_named platform rest) as [j'|] eqn:Hrest.
  - intros [= <-]. by apply IH.
  - destruct (named platform s) eqn:Hs; [|done].
    intros [= <-]. destruct (named_object _ Hs) as [fs ->]. eauto.
Qed.

Lemma last_named_none secs s :
  last_named platform secs = None → s ∈ secs → named platform s = false.
Proof.
  induction secs as [|s0 rest IH]; simpl; [by intros _ ?%elem_of_nil|].
  destruct (last_named platform rest) eqn:Hrest; [done|].
  destruct (named platform s0) eqn:Hs0; [done|].
  intros _ [->|Hin]%elem_of_cons; [done|]. by apply IH.
Qed.

(** No section after the last named one carries the name. *)
Lemma last_named_after secs j j' s :
  last_named platform secs = Some j → secs !! j' = Some s → j < j' →
  named platform s = false.
Proof.
  revert j j'. induction secs as [|s0 rest IH]; intros j j'; simpl; [done|].
  destruct (last_named platform rest) as [j0|] eqn:Hrest.
  - intros [= <-] Hl Hlt. destruct j' as [|j']; [lia|].
    eapply IH; [done|exact Hl|lia].
  - destruct (named platform s0); [|done].
    intros [= <-] Hl Hlt. destruct j' as [|j']; [lia|]. simpl in Hl.
    eapply last_named_none; [done|]. by eapply list_elem_of_lookup_2.
Qed.

Lemma configSectionAt_cons i s rest :
  configSectionAt platform i (s :: rest) =
  match configSectionAt platform (S i) rest with
  | Some cs => Some cs
  | None =>
      match s with
      | JObj fs => if named platform s then Some (i, fs) else None
      | _ => None
      end
  end.
Proof.
  unfold configSectionAt. cbn [last_named].
  destruct (last_named platform rest) as [j|] eqn:Hrest.
  - change ((s :: rest) !! S j) with (rest !! j).
    destruct (last_named_lookup _ _ Hrest) as (fs & -> & _).
    do 2 f_equal. lia.
  - destruct (named platform s) eqn:Hs.
    + destruct (named_object _ Hs) as [fs ->].
      change ((JObj fs :: rest) !! 0) with (Some (JObj fs)).
      do 2 f_equal. lia.
    + by destruct s.
Qed.

Lemma visited_named s s' :
  visited platform s s' → named platform s' = named platform s.
Proof.
  intros [_ Hv]. destruct (named platform s) eqn:Hs.
  - destruct Hv as (fs & fs' & -> & Hf & ->).
    by rewrite (forceBrowse_named _ _ _ Hf).
  - by subst.
Qed.

Lemma visited_settled s s' : visited platform s s' → settled platform s'.
Proof.
  intros Hv. pose proof (visited_named _ _ Hv) as Hn.
  destruct Hv as [Hnull Hv]. unfold settled, visited. rewrite Hn.
  destruct (named platform s) eqn:Hs.
  - destruct Hv as (fs & fs' & -> & Hf & ->). split; [done|].
    exists fs', fs'. eauto using forceBrowse_again.
  - by subst.
Qed.

Lemma last_named_visited secs secs' :
  Forall2 (visited platform) secs secs' →
  last_named platform secs' = last_named platform secs.
Proof.
  induction 1 as [|s s' rest rest' Hv _ IH]; simpl; [done|].
  by rewrite IH, (visited_named _ _ Hv).
Qed.

Lemma scanSections_visited i secs secs' cs :
  scanSections platform i secs = Done (secs', cs) →
  Forall2 (visited platform) secs secs'.
Proof.
  revert i secs' cs. induction secs as [|s rest IH]; intros i secs' cs; simpl.
  - intros [= <- <-]. constructor.
  - assert (Hplain : named platform s = false → s ≠ JNull →
              ('(rest', later) ← scanSections platform (S i) rest;
               Done (s :: rest', later)) = Done (secs', cs) →
              Forall2 (visited platform) (s :: rest) secs').
    { intros Hs Hnull Hscan.
      destruct (scanSections platform (S i) rest) as [[rest' later]|] eqn:Hrest;
        simpl in Hscan; [|done].
      injection Hscan as <- <-. constructor; [|by eapply IH].
      split; [done|]. by rewrite Hs. }
    destruct s as [|b|q|str|items|fs]; try (by apply Hplain).
    + done.
    + destruct (named platform (JObj fs)) eqn:Hs; [|by apply Hplain].
      destruct (forceBrowse fs) as [fs'|] eqn:Hf; simpl; [|done].
      destruct (scanSections platform (S i) rest) as [[rest' later]|] eqn:Hrest;
        simpl; [|done].
      intros [= <- <-]. constructor; [|by eapply IH].
      split; [done|]. rewrite Hs. eauto.
Qed.

Lemma scanSections_configSection i secs secs' cs :
  scanSections platform i secs = Done (secs', cs) →
  cs = configSectionAt platform i secs'.
Proof.
  revert i secs' cs. induction secs as [|s rest IH]; intros i secs' cs; simpl.
  - by intros [= <- <-].
  - assert (Hplain : named platform s = false →
              ('(rest', later) ← scanSections platform (S i) rest;
               Done (s :: rest', later)) = Done (secs', cs) →
              cs = configSectionAt platform i secs').
    { intros Hs Hscan.
      destruct (scanSections platform (S i) rest) as [[rest' later]|] eqn:Hrest;
        simpl in Hscan; [|done].
      injection Hscan as <- <-. rewrite configSectionAt_cons.
      rewrite <- (IH _ _ _ Hrest). destruct later; [done|].
      rewrite Hs. by destruct s. }
    destruct s as [|b|q|str|items|fs]; try (by apply Hplain).
    + done.
    + destruct (named platform (JObj fs)) eqn:Hs; [|by apply Hplain].
      destruct (forceBrowse fs) as [fs'|] eqn:Hf; simpl; [|done].
      destruct (scanSections platform (S i) rest) as [[rest' later]|] eqn:Hrest;
        simpl; [|done].
      intros [= <- <-]. rewrite configSectionAt_cons.
      rewrite <- (IH _ _ _ Hrest). destruct later; [done|].
      by rewrite (forceBrowse_named _ _ _ Hf), Hs.
Qed.

Lemma scanSections_settled i secs :
  Forall (settled platform) secs →
  scanSections platform i secs = Done (secs, configSectionAt platform i secs).
Proof.
  intros Hall. revert i. induction Hall as [|s rest [Hnull Hs] _ IH]; intros i.
  - done.
  - rewrite configSectionAt_cons.
    destruct (named platform s) eqn:Hn.
    + destruct Hs as (fs & fs' & -> & Hf & [= <-]).
      simpl. rewrite Hn, Hf, (IH (S i)). simpl.
      by destruct (configSectionAt platform (S i) rest).
    + destruct s; try done; simpl; rewrite ?Hn, (IH (S i)); simpl;
        by destruct (configSectionAt platform (S i) rest).
Qed.

End ScanFacts.

Section MergeFacts.
Context `{PathApi}.

(** *** Merging the candidates *)

Lemma alreadyListed_app_true c l l2 :
  alreadyListed c l = Done true → alreadyListed c (l ++ l2) = Done true.
Proof.
  induction l as [|e l IH]; simpl; [done|].
  destruct e; try done. destruct (decide (c = resolved s)); auto.
Qed.

Lemma alreadyListed_snoc c l x :
  alreadyListed c l = Done false → c = resolved x →
  alreadyListed c (l ++ [JStr x]) = Done true.
Proof.
  intros Hl Hx. induction l as [|e l IH]; simpl in *.
  - by rewrite decide_True.
  - destruct e; try done. destruct (decide (c = resolved s)); auto.
Qed.

Lemma alreadyListed_strings c entries :
  alreadyListed c (JStr <$> entries)
  = Done (bool_decide (Exists (λ e, resolved e = c) entries)).
Proof.
  induction entries as [|e entries IH].
  - rewrite bool_decide_eq_false_2; [done|]. by intros ?%Exists_nil.
  - rewrite fmap_cons. cbn [alreadyListed].
    destruct (decide (c = resolved e)) as [->|Hne].
    + rewrite bool_decide_eq_true_2; [done|]. by left.
    + rewrite IH. f_equal. apply bool_decide_ext. rewrite Exists_cons.
      split; [by right|]. by intros [Heq|?].
Qed.

Lemma listed_skip c fs : listed c fs → addChildLibPath c fs = Done fs.
Proof.
  unfold listed, addChildLibPath. intros Hl.
  destruct (lookup_field "includePath" fs) as [[| | |s|entries|]|]; try done.
  - destruct s; [done|]. by rewrite Hl.
  - destruct entries; [done|]. by rewrite Hl.
Qed.

Lemma addChildLibPath_other c fs fs' k :
  addChildLibPath c fs = Done fs' → k ≠ "includePath" →
  lookup_field k fs' = lookup_field k fs.
Proof.
  unfold addChildLibPath. intros Ha Hk.
  assert (Hfresh : ∀ v, Done (assign_field "includePath" v fs) = Done fs' →
                        lookup_field k fs' = lookup_field k fs).
  { intros v [= <-]. by rewrite lookup_assign_ne. }
  destruct (lookup_field "includePath" fs) as [[| | |s|entries|o]|]; eauto.
  - destruct s; eauto.
    destruct (alreadyListed _ _) as [[]|]; simpl in Ha; by simplify_eq.
  - destruct entries; eauto.
    destruct (alreadyListed _ _) as [[]|]; simpl in Ha; simplify_eq; eauto.
  - destruct (truthy _); [done|]. eauto.
Qed.

Lemma addChildLibPath_listed c fs fs' :
  resolve_stable → addChildLibPath c fs = Done fs' → listed c fs'.
Proof.
  intros Hst. unfold addChildLibPath, listed.
  assert (Hfresh : Done (assign_field "includePath" (JArr [JStr (resolved c)]) fs)
                   = Done fs' →
            match lookup_field "includePath" fs' with
            | Some (JArr entries) => alreadyListed (resolved c) entries = Done true
            | Some (JStr s) =>
                alreadyListed (resolved c) (JStr <$> chars s) = Done true
            | _ => False
            end).
  { intros [= <-]. rewrite lookup_assign_eq. simpl. by rewrite Hst, decide_True. }
  destruct (lookup_field "includePath" fs) as [[| | |s|entries|o]|] eqn:Hip; eauto.
  - destruct s as [|a s]; eauto.
    destruct (alreadyListed _ _) as [[]|] eqn:Hal; simpl; [|done..].
    intros [= <-]. by rewrite Hip.
  - destruct entries as [|e l]; eauto.
    destruct (alreadyListed _ _) as [[]|] eqn:Hal; simpl; [| |done].
    + intros [= <-]. by rewrite Hip.
    + intros [= <-]. rewrite lookup_assign_eq.
      apply (alreadyListed_snoc _ (e :: l)); [done|]. by rewrite Hst.
  - destruct (truthy _); [done|]. eauto.
Qed.

Lemma listed_mono c c2 fs fs2 :
  listed c fs → addChildLibPath c2 fs = Done fs2 → listed c fs2.
Proof.
  unfold listed, addChildLibPath.
  destruct (lookup_field "includePath" fs) as [[| | |s|entries|o]|] eqn:Hip;
    try done.
  - intros Hl. destruct s as [|a s]; [done|].
    destruct (alreadyListed (resolved c2) _) as [[]|]; simpl; [|done..].
    intros [= <-]. by rewrite Hip.
  - intros Hl. destruct entries as [|e l]; [done|].
    destruct (alreadyListed (resolved c2) _) as [[]|]; simpl; [| |done].
    + intros [= <-]. by rewrite Hip.
    + intros [= <-]. rewrite lookup_assign_eq.
      by apply (alreadyListed_app_true _ (e :: l)).
Qed.

Lemma mergePaths_other libPaths fs fs' k :
  mergePaths libPaths fs = Done fs' → k ≠ "includePath" →
  lookup_field k fs' = lookup_field k fs.
Proof.
  revert fs. induction libPaths as [|c rest IH]; intros fs; simpl.
  - by intros [= <-].
  - destruct (addChildLibPath c fs) as [fs1|] eqn:Hc; simpl; [|done].
    intros Hm Hk. rewrite (IH _ Hm Hk). by eapply addChildLibPath_other.
Qed.

Lemma mergePaths_listed libPaths fs fs' :
  resolve_stable → mergePaths libPaths fs = Done fs' →
  (∀ c, listed c fs → listed c fs') ∧ Forall (λ c, listed c fs') libPaths.
Proof.
  intros Hst. revert fs. induction libPaths as [|c rest IH]; intros fs; simpl.
  - intros [= <-]. split; [done|constructor].
  - destruct (addChildLibPath c fs) as [fs1|] eqn:Hc; simpl; [|done].
    intros Hm. destruct (IH _ Hm) as [Hmono Hall]. split.
    + intros c0 Hc0. apply Hmono. by eapply listed_mono.
    + constructor; [|done]. apply Hmono. by eapply addChildLibPath_listed.
Qed.

Lemma mergePaths_skip libPaths fs :
  Forall (λ c, listed c fs) libPaths → mergePaths libPaths fs = Done fs.
Proof.
  induction 1 as [|c rest Hc _ IH]; simpl; [done|].
  by rewrite (listed_skip _ _ Hc).
Qed.

Lemma mergePaths_again libPaths fs fs' :
  resolve_stable → mergePaths libPaths fs = Done fs' →
  mergePaths libPaths fs' = Done fs'.
Proof.
  intros Hst Hm. apply mergePaths_skip. by eapply mergePaths_listed.
Qed.

(** On an [includePath] that is an array of strings the loop computes the
    specification's merge. *)
Lemma addChildLibPath_strings c fs entries :
  lookup_field "includePath" fs = Some (JArr (JStr <$> entries)) →
  addChildLibPath c fs
  = Done (assign_field "includePath" (JArr (JStr <$> spec_add entries c)) fs).
Proof.
  intros Hip. unfold addChildLibPath, spec_add. rewrite Hip.
  destruct entries as [|e l].
  - rewrite bool_decide_eq_false_2; [done|]. by intros ?%Exists_nil.
  - rewrite fmap_cons at 1. rewrite <- fmap_cons.
    rewrite alreadyListed_strings. cbn [mbind outcome_bind].
    destruct (bool_decide _).
    + by rewrite assign_id.
    + by rewrite fmap_app.
Qed.

Lemma mergePaths_strings libPaths fs entries :
  lookup_field "includePath" fs = Some (JArr (JStr <$> entries)) →
  mergePaths libPaths fs
  = Done (assign_field "includePath"
            (JArr (JStr <$> spec_merge entries libPaths)) fs).
Proof.
  revert fs entries. induction libPaths as [|c rest IH]; intros fs entries Hip; simpl.
  - by rewrite assign_id.
  - rewrite (addChildLibPath_strings _ _ _ Hip). simpl.
    rewrite (IH _ (spec_add entries c)); [|by rewrite lookup_assign_eq].
    by rewrite assign_assign.
Qed.

Lemma spec_merge_prefix entries candidates :
  entries `prefix_of` spec_merge entries candidates.
Proof.
  revert entries. induction candidates as [|c rest IH]; intros entries; simpl.
  - done.
  - etrans; [|apply IH]. unfold spec_add.
    destruct (bool_decide _); [done|]. by apply prefix_app_r.
Qed.

End MergeFacts.

Section ReconcileDocument.
Context `{PathApi}.
Variable platform : string.

(** *** Reconciling a parsed document *)

Lemma forceBrowse_transfer fs fs' :
  forceBrowse fs = Done fs →
  lookup_field "browse" fs' = lookup_field "browse" fs →
  forceBrowse fs' = Done fs'.
Proof.
  unfold forceBrowse. intros Hf Hl. rewrite Hl.
  destruct (or_default (lookup_field "browse" fs) (JObj [])) eqn:Hb; try done;
    injection Hf as Hf; f_equal; apply assign_id; rewrite Hl, <- Hf at 1;
    apply lookup_assign_eq.
Qed.

Lemma forceBrowse_inside fs fs' b k :
  forceBrowse fs = Done fs' → lookup_field "browse" fs = Some (JObj b) →
  k ≠ browseFlag →
  lookup_field "browse" fs' ≫= prop k = lookup_field k b.
Proof.
  unfold forceBrowse. intros Hf Hb Hk. rewrite Hb in Hf. simpl in Hf.
  injection Hf as <-. rewrite lookup_assign_eq. simpl.
  by rewrite lookup_assign_ne.
Qed.

Lemma newSection_named : named platform (JObj (newSection platform)) = true.
Proof. unfold named. simpl. by rewrite bool_decide_eq_true_2. Qed.

Lemma newSection_settled : settled platform (JObj (newSection platform)).
Proof.
  split; [done|]. rewrite newSection_named.
  by exists (newSection platform), (newSection platform).
Qed.

Lemma last_named_snoc secs s :
  named platform s = true →
  last_named platform (secs ++ [s]) = Some (length secs).
Proof.
  intros Hs. induction secs as [|s0 rest IH]; simpl.
  - by rewrite Hs.
  - by rewrite IH.
Qed.

Lemma last_named_insert secs j s s' :
  secs !! j = Some s → named platform s' = named platform s →
  last_named platform (<[j := s']> secs) = last_named platform secs.
Proof.
  revert j. induction secs as [|s0 rest IH]; intros j Hl Hn; [done|].
  destruct j as [|j]; simpl in *.
  - injection Hl as ->. by rewrite Hn.
  - by rewrite (IH _ Hl Hn).
Qed.

Lemma configSectionAt_insert secs i fs fs' :
  configSectionAt platform 0 secs = Some (i, fs) →
  named platform (JObj fs') = true →
  configSectionAt platform 0 (<[i := JObj fs']> secs) = Some (i, fs').
Proof.
  unfold configSectionAt.
  destruct (last_named platform secs) as [j|] eqn:Hlast; [|done].
  destruct (last_named_lookup _ _ _ Hlast) as (fs0 & Hl & Hn0).
  rewrite Hl. intros [= <- <-] Hn.
  rewrite (last_named_insert _ _ (JObj fs0)), Hlast by congruence.
  rewrite list_lookup_insert_eq; [done|]. by eapply lookup_lt_Some.
Qed.

(** What a successful run on an object did: the sections after the scan
    ([secs1]), the sequence holding the active section ([secs2]), its index
    and properties before and after the merge. *)
Lemma reconcile_inv libPaths top d' :
  reconcile platform libPaths (JObj top) = Done d' →
  ∃ secs1 secs2 i fs fs',
    Forall2 (visited platform) (sections (JObj top)) secs1 ∧
    (last_named platform secs1 = Some i ∧ secs2 = secs1 ∨
     last_named platform secs1 = None ∧ secs2 = secs1 ++ [JObj (newSection platform)]
       ∧ i = length secs1 ∧ fs = newSection platform) ∧
    Forall (settled platform) secs2 ∧
    configSectionAt platform 0 secs2 = Some (i, fs) ∧
    mergePaths libPaths fs = Done fs' ∧
    d' = JObj (assign_field "configurations"
                 (JArr (<[i := JObj fs']> secs2)) top).
Proof.
  unfold reconcile, sections.
  destruct (or_default (lookup_field "configurations" top) (JArr []))
    as [| | | |secs|]; try done.
  destruct (scanSections platform 0 secs) as [[secs1 cs]|] eqn:Hscan; [|done].
  pose proof (scanSections_visited _ _ _ _ _ Hscan) as Hvis.
  pose proof (scanSections_configSection _ _ _ _ _ Hscan) as Hcs.
  assert (Hsettled : Forall (settled platform) secs1).
  { clear -Hvis. induction Hvis; constructor; eauto using visited_settled. }
  cbn [mbind outcome_bind].
  destruct cs as [[i fs]|].
  - destruct (mergePaths libPaths fs) as [fs'|] eqn:Hm; [|done].
    intros [= <-]. exists secs1, secs1, i, fs, fs'.
    split_and!; try done. left. split; [|done].
    unfold configSectionAt in Hcs.
    destruct (last_named platform secs1) as [j|]; [|done].
    destruct (secs1 !! j) as [[]|]; by simplify_eq.
  - destruct (mergePaths libPaths (newSection platform)) as [fs'|] eqn:Hm; [|done].
    intros [= <-].
    assert (Hnone : last_named platform secs1 = None).
    { unfold configSectionAt in Hcs.
      destruct (last_named platform secs1) as [j|] eqn:Hlast; [|done].
      destruct (last_named_lookup _ _ _ Hlast) as (fs0 & Hl & _).
      by rewrite Hl in Hcs. }
    exists secs1, (secs1 ++ [JObj (newSection platform)]), (length secs1),
      (newSection platform), fs'.
    split_and!; try done.
    + right. done.
    + apply Forall_app. split; [done|]. constructor; [|constructor].
      apply newSection_settled.
    + unfold configSectionAt.
      rewrite (last_named_snoc _ _ newSection_named).
      by rewrite lookup_app_r, Nat.sub_diag by lia.
Qed.

Lemma reconcile_truthy libPaths d d' :
  reconcile platform libPaths d = Done d' → truthy d' = true.
Proof.
  destruct d as [| | | |items|top]; try done.
  - by intros [= <-].
  - intros Hr. destruct (reconcile_inv _ _ _ Hr) as (?&?&?&?&?&_&_&_&_&_&->). done.
Qed.

(** A reconciled document is a fixed point of reconciliation. *)
Lemma reconcile_again libPaths d d' :
  resolve_stable →
  reconcile platform libPaths d = Done d' →
  reconcile platform libPaths d' = Done d'.
Proof.
  intros Hst. destruct d as [| | | |items|top]; try done.
  { by intros [= <-]. }
  intros Hr.
  destruct (reconcile_inv _ _ _ Hr)
    as (secs1 & secs2 & i & fs & fs' & _ & _ & Hsettled & Hcs & Hm & ->).
  assert (Hi : secs2 !! i = Some (JObj fs) ∧ named platform (JObj fs) = true).
  { unfold configSectionAt in Hcs.
    destruct (last_named platform secs2) as [j|] eqn:Hlast; [|done].
    destruct (last_named_lookup _ _ _ Hlast) as (fs0 & Hl & Hn).
    rewrite Hl in Hcs. by simplify_eq. }
  destruct Hi as [Hi Hn].
  assert (Hn' : named platform (JObj fs') = true).
  { unfold named in *. simpl in *.
    by rewrite (mergePaths_other _ _ _ "name" Hm). }
  assert (Hfs' : settled platform (JObj fs')).
  { split; [done|]. rewrite Hn'. exists fs', fs'. split_and!; try done.
    pose proof (Forall_lookup_1 _ _ _ _ Hsettled Hi) as [_ Hfs].
    rewrite Hn in Hfs. destruct Hfs as (? & ? & [= <-] & Hf & [= <-]).
    eapply forceBrowse_transfer; [exact Hf|].
    by eapply mergePaths_other. }
  unfold reconcile. rewrite lookup_assign_eq. cbn [or_default truthy].
  rewrite scanSections_settled by (by apply Forall_insert).
  rewrite (configSectionAt_insert _ _ _ _ Hcs Hn').
  cbn [mbind outcome_bind]. rewrite (mergePaths_again _ _ _ Hst Hm).
  cbn [mbind outcome_bind].
  by rewrite list_insert_insert_eq, assign_assign.
Qed.

(** A successful run keeps everything the tool does not manage. *)
Lemma reconcile_frame libPaths d d' :
  reconcile platform libPaths d = Done d' → preserved platform d d'.
Proof.
  destruct d as [| | | |items|top]; try done.
  { intros [= <-]. split; [done|]. by intros j s Hl. }
  intros Hr.
  destruct (reconcile_inv _ _ _ Hr)
    as (secs1 & secs2 & i & fs & fs' & Hvis & Hcase & _ & Hcs & Hm & ->).
  split.
  { intros k Hk. simpl. by rewrite lookup_assign_ne. }
  intros j s Hj.
  destruct (Forall2_lookup_l _ _ _ _ _ Hvis Hj) as (s1 & Hj1 & Hv).
  pose proof (visited_named _ _ _ Hv) as Hnamed.
  pose proof (last_named_visited _ _ _ Hvis) as Hlast.
  assert (Hj2 : secs2 !! j = Some s1).
  { destruct Hcase as [[_ ->]|(_ & -> & _)]; [done|].
    by apply lookup_app_l_Some. }
  assert (Hsec : sections (JObj (assign_field "configurations"
                   (JArr (<[i:=JObj fs']> secs2)) top)) = <[i:=JObj fs']> secs2).
  { unfold sections. by rewrite lookup_assign_eq. }
  rewrite Hsec.
  assert (Hkeep : ∀ k, k ≠ "browse" → prop k s1 = prop k s).
  { intros k Hk. destruct Hv as [_ Hv]. destruct (named platform s).
    - destruct Hv as (f0 & f1 & -> & Hf & ->). simpl.
      by eapply forceBrowse_other.
    - by subst. }
  assert (Hin : ∀ b k, prop "browse" s = Some (JObj b) → k ≠ browseFlag →
                       prop "browse" s1 ≫= prop k = lookup_field k b).
  { intros b k Hb Hk. destruct Hv as [_ Hv]. destruct (named platform s).
    - destruct Hv as (f0 & f1 & -> & Hf & ->). simpl in *.
      by eapply forceBrowse_inside.
    - subst. by rewrite Hb. }
  destruct (decide (i = j)) as [->|Hij].
  - (* the section the candidates are merged into *)
    assert (Hact : last_named platform secs1 = Some j ∧ s1 = JObj fs).
    { destruct Hcase as [[Hl ->]|(_ & -> & -> & _)].
      - split; [done|]. unfold configSectionAt in Hcs. rewrite Hl, Hj2 in Hcs.
        destruct s1; by simplify_eq.
      - apply lookup_lt_Some in Hj1. lia. }
    destruct Hact as [Hact ->].
    assert (Hs : named platform s = true).
    { rewrite <- Hnamed. by destruct (last_named_lookup _ _ _ Hact) as (? & ? & ?);
        simplify_eq. }
    exists (JObj fs'). rewrite list_lookup_insert_eq by (by eapply lookup_lt_Some).
    split_and!; try done.
    + by rewrite Hs.
    + intros k Hk1 Hk2. rewrite <- Hkeep by done. simpl.
      by eapply mergePaths_other.
    + intros b k Hb Hk. rewrite <- (Hin b k Hb Hk). simpl.
      by rewrite (mergePaths_other _ _ _ "browse" Hm).
    + by rewrite <- Hlast, Hact.
  - exists s1. rewrite list_lookup_insert_ne by done.
    split_and!; try done.
    + intros Hs. destruct Hv as [_ Hv]. by rewrite Hs in Hv.
    + intros k _ Hk. by apply Hkeep.
    + intros _. by apply Hkeep.
Qed.

End ReconcileDocument.

(** ** The POSIX instance resolves stably *)

Section PosixFacts.
Import Posix.

Lemma split_char_slash_free p : Forall slash_free (segments p).
Proof.
  unfold segments. induction p as [|c p IH]; simpl.
  - by repeat constructor.
  - destruct (decide (c = "/"%char)) as [->|Hc].
    + by constructor.
    + destruct (split_char "/" p) as [|x xs]; [by repeat constructor|].
      inversion_clear IH. by constructor.
Qed.

Lemma segments_segment a b :
  slash_free a → segments (a +:+ String "/" b) = a :: segments b.
Proof.
  unfold segments. induction a as [|c a IH]; simpl.
  - done.
  - intros [Hc Ha]. rewrite decide_False by done. by rewrite (IH Ha).
Qed.

Lemma segments_single a : slash_free a → segments a = [a].
Proof.
  unfold segments. induction a as [|c a IH]; simpl; [done|].
  intros [Hc Ha]. rewrite decide_False by done. by rewrite (IH Ha).
Qed.

Lemma segments_join stack :
  stack ≠ [] → Forall slash_free stack → segments (join_segments stack) = stack.
Proof.
  induction stack as [|seg rest IH]; [done|]. intros _ Hall.
  inversion_clear Hall as [|? ? Hseg Hrest].
  destruct rest as [|seg' rest'].
  - by apply segments_single.
  - change (join_segments (seg :: seg' :: rest'))
      with (seg +:+ String "/" (join_segments (seg' :: rest'))).
    rewrite segments_segment by done. by rewrite IH.
Qed.

Lemma keep_clean stack seg :
  Forall clean stack → slash_free seg → Forall clean (keep false stack seg).
Proof.
  intros Hst Hseg. unfold keep.
  destruct (decide (seg = "" ∨ seg = ".")) as [|Hdot]; [done|].
  destruct (decide (seg = "..")).
  - destruct stack as [|top below]; [done|].
    destruct (decide (top = "..")); [done|]. by inversion Hst.
  - constructor; [|done]. unfold clean. split_and!; try done.
    all: intros ->; apply Hdot; auto.
Qed.

Lemma normalizeSegments_clean segs :
  Forall slash_free segs → Forall clean (normalizeSegments false segs).
Proof.
  unfold normalizeSegments. intros Hsegs. apply Forall_rev.
  assert (Hgen : ∀ stack, Forall clean stack →
                          Forall clean (foldl (keep false) stack segs)).
  { induction Hsegs as [|seg rest Hseg _ IH]; intros stack Hst; simpl; [done|].
    apply IH. by apply keep_clean. }
  by apply Hgen.
Qed.

Lemma foldl_keep_clean segs stack :
  Forall clean segs → foldl (keep false) stack segs = rev segs ++ stack.
Proof.
  intros Hsegs. revert stack.
  induction Hsegs as [|seg rest (Hne & Hdot & Hdots & _) _ IH]; intros stack; simpl.
  - done.
  - rewrite IH. unfold keep.
    rewrite decide_False by (by intros [?|?]). rewrite decide_False by done.
    by rewrite <- app_assoc.
Qed.

Lemma normalizeSegments_rooted stack :
  Forall clean stack →
  normalizeSegments false (segments (String "/" (join_segments stack))) = stack.
Proof.
  intros Hst. unfold normalizeSegments.
  change (String "/" (join_segments stack)) with ("" +:+ String "/" (join_segments stack)).
  rewrite segments_segment by done.
  destruct stack as [|seg rest].
  - done.
  - rewrite segments_join; [|done|].
    + change (foldl (keep false) [] ("" :: seg :: rest))
        with (foldl (keep false) (keep false [] "") (seg :: rest)).
      unfold keep at 2. rewrite decide_True by (by left).
      rewrite foldl_keep_clean by done. by rewrite app_nil_r, rev_involutive.
    + eapply Forall_impl; [exact Hst|]. by intros ? (_ & _ & _ & ?).
Qed.

Lemma endsWithSlash_slash_free a : slash_free a → endsWithSlash a = false.
Proof.
  induction a as [|c a IH]; simpl; [done|]. intros [Hc Ha].
  destruct a; [by rewrite bool_decide_eq_false_2|]. by apply IH.
Qed.

Lemma endsWithSlash_app a c b :
  endsWithSlash (a +:+ String c b) = endsWithSlash (String c b).
Proof.
  induction a as [|c' a IH]; [done|].
  change (String c' a +:+ String c b) with (String c' (a +:+ String c b)).
  cbn [endsWithSlash]. rewrite IH.
  destruct (a +:+ String c b) eqn:Heq; [|done].
  by destruct a.
Qed.

Lemma join_segments_nonempty seg rest :
  seg ≠ "" → join_segments (seg :: rest) ≠ "".
Proof. destruct seg; [done|]. by destruct rest. Qed.

Lemma endsWithSlash_join stack :
  Forall clean stack → endsWithSlash (join_segments stack) = false.
Proof.
  induction 1 as [|seg rest (Hne & _ & _ & Hfree) Hrest IH]; [done|].
  destruct rest as [|seg' rest'].
  - by apply endsWithSlash_slash_free.
  - change (join_segments (seg :: seg' :: rest'))
      with (seg +:+ String "/" (join_segments (seg' :: rest'))).
    rewrite endsWithSlash_app. cbn [endsWithSlash].
    inversion_clear Hrest as [|? ? (Hne' & _) _].
    pose proof (join_segments_nonempty seg' rest' Hne') as Hj.
    by destruct (join_segments (seg' :: rest')).
Qed.

(** A resolved path is a root followed by clean segments, and both
    [normalize] and [resolve] leave such a path as it is. *)
Lemma resolve_rooted cwd p :
  ∃ stack, Forall clean stack ∧ resolve cwd p = String "/" (join_segments stack).
Proof.
  unfold resolve, normalizeString. eexists. split; [|done].
  apply normalizeSegments_clean, split_char_slash_free.
Qed.

Lemma resolve_fixed cwd stack :
  Forall clean stack →
  resolve cwd (String "/" (join_segments stack)) = String "/" (join_segments stack).
Proof.
  intros Hst. unfold resolve, normalizeString. cbn [isAbsolute].
  by rewrite normalizeSegments_rooted.
Qed.

Lemma normalize_fixed stack :
  Forall clean stack →
  normalize (String "/" (join_segments stack)) = String "/" (join_segments stack).
Proof.
  intros Hst. unfold normalize, normalizeString. cbn [isAbsolute negb].
  rewrite normalizeSegments_rooted by done.
  destruct stack as [|seg rest]; [done|].
  inversion Hst as [|? ? (Hne & _) _]; subst.
  pose proof (join_segments_nonempty seg rest Hne) as Hj.
  cbn [endsWithSlash].
  destruct (join_segments (seg :: rest)) eqn:Heq; [done|].
  rewrite <- Heq. by rewrite (endsWithSlash_join _ Hst).
Qed.

Lemma posix_resolve_stable cwd : @resolve_stable (Posix.api cwd).
Proof.
  intros p. unfold resolved. cbn [path_resolve path_normalize api].
  destruct (resolve_rooted cwd (normalize p)) as (stack & Hst & ->).
  by rewrite normalize_fixed, resolve_fixed.
Qed.

End PosixFacts.

Section MergeSpecification.
Context `{PathApi}.

(** *** The specification's merge, under stable resolution *)

Lemma spec_merge_fixed entries candidates :
  resolve_stable →
  Forall (λ e, resolved e = e) entries →
  Forall (λ e, resolved e = e) (spec_merge entries candidates).
Proof.
  intros Hst. revert entries.
  induction candidates as [|c rest IH]; intros entries Hfix; simpl; [done|].
  apply IH. unfold spec_add. destruct (bool_decide _); [done|].
  apply Forall_app. split; [done|]. constructor; [apply Hst|constructor].
Qed.

Lemma spec_merge_NoDup entries candidates :
  Forall (λ e, resolved e = e) entries → resolve_stable →
  NoDup entries → NoDup (spec_merge entries candidates).
Proof.
  intros Hfix Hst. revert entries Hfix.
  induction candidates as [|c rest IH]; intros entries Hfix Hnd; simpl; [done|].
  apply IH.
  - apply (spec_merge_fixed entries [c] Hst Hfix).
  - unfold spec_add. case_bool_decide as Hex; [done|].
    apply NoDup_app. split_and!; [done| |apply NoDup_singleton].
    intros x Hx ->%list_elem_of_singleton. apply Hex, Exists_exists.
    exists (resolved c). split; [done|].
    by apply (proj1 (Forall_forall _ _) Hfix).
Qed.

Lemma spec_merge_elem entries candidates x :
  Forall (λ e, resolved e = e) entries → resolve_stable →
  x ∈ spec_merge entries candidates ↔ x ∈ entries ∨ x ∈ resolved <$> candidates.
Proof.
  intros Hfix Hst. revert entries Hfix.
  induction candidates as [|c rest IH]; intros entries Hfix; simpl.
  - rewrite elem_of_nil. tauto.
  - rewrite IH by apply (spec_merge_fixed entries [c] Hst Hfix).
    rewrite elem_of_cons. unfold spec_add. case_bool_decide as Hex.
    + apply Exists_exists in Hex as (e & He & Heq).
      rewrite (proj1 (Forall_forall _ _) Hfix e He) in Heq.
      split; [tauto|]. intros [?|[->|?]]; auto. left. by rewrite <- Heq.
    + rewrite elem_of_app, list_elem_of_singleton. tauto.
Qed.

(** C4. Deduplication is normalisation-aware and keeps the order: on a
    section whose [includePath] is an array of path strings, the merge loop
    succeeds and leaves the array the specification's procedure yields, which
    skips a candidate whose resolved form equals the resolved form of an
    entry and appends any other, resolved, at the end; the old entries stay
    in front, in their order, and no other property of the section changes. *)
Theorem mergePaths_dedup_ordered (fs : fields) (entries candidates : list string) :
  lookup_field "includePath" fs = Some (JArr (JStr <$> entries)) →
  ∃ fs',
    mergePaths candidates fs = Done fs' ∧
    lookup_field "includePath" fs'
      = Some (JArr (JStr <$> spec_merge entries candidates)) ∧
    entries `prefix_of` spec_merge entries candidates ∧
    ∀ k, k ≠ "includePath" → lookup_field k fs' = lookup_field k fs.
Proof.
  intros Hip. eexists. split; [by apply mergePaths_strings|].
  split_and!.
  - by rewrite lookup_assign_eq.
  - apply spec_merge_prefix.
  - intros k Hk. by rewrite lookup_assign_ne.
Qed.

(** C10, amended. When the section the candidates go to has no [includePath]
    or an empty array, the merge loop does not fail.  With at least one
    candidate it leaves an [includePath] array holding the resolved form of
    every candidate exactly once, in the order of first appearance, a
    candidate being dropped when an earlier one of the same call resolved to
    the same path, and the other properties of the section are unchanged.
    With no candidate it leaves the section as it is: no array is created. *)
Theorem mergePaths_creates_includePath (fs : fields) (libPaths : list string) :
  resolve_stable →
  lookup_field "includePath" fs = None ∨
    lookup_field "includePath" fs = Some (JArr []) →
  match libPaths with
  | [] => mergePaths libPaths fs = Done fs
  | _ :: _ =>
      ∃ fs',
        mergePaths libPaths fs = Done fs' ∧
        lookup_field "includePath" fs'
          = Some (JArr (JStr <$> spec_merge [] libPaths)) ∧
        NoDup (spec_merge [] libPaths) ∧
        (∀ x, x ∈ spec_merge [] libPaths ↔ x ∈ resolved <$> libPaths) ∧
        ∀ k, k ≠ "includePath" → lookup_field k fs' = lookup_field k fs
  end.
Proof.
  intros Hst Hip. destruct libPaths as [|c rest]; [done|].
  assert (Hrun : mergePaths (c :: rest) fs
                 = Done (assign_field "includePath"
                           (JArr (JStr <$> spec_merge [] (c :: rest))) fs)).
  { destruct Hip as [Hnone|Hnil].
    - cbn [mergePaths]. unfold addChildLibPath at 1. rewrite Hnone.
      cbn [mbind outcome_bind].
      rewrite (mergePaths_strings rest _ [resolved c])
        by (by rewrite lookup_assign_eq).
      by rewrite assign_assign.
    - by apply (mergePaths_strings (c :: rest) fs []). }
  eexists. split; [exact Hrun|]. split_and!.
  - by rewrite lookup_assign_eq.
  - apply spec_merge_NoDup; [constructor|done|constructor].
  - intros x. rewrite spec_merge_elem by (done || constructor).
    rewrite elem_of_nil. tauto.
  - intros k Hk. by rewrite lookup_assign_ne.
Qed.

End MergeSpecification.

Section ActiveSection.
Context `{PathApi}.
Variable platform : string.

Lemma visited_unnamed secs secs1 :
  Forall2 (visited platform) secs secs1 →
  last_named platform secs = None → secs1 = secs.
Proof.
  induction 1 as [|s s1 rest rest1 [_ Hv] _ IH]; [done|]. simpl.
  destruct (last_named platform rest); [done|].
  destruct (named platform s); [done|]. intros _. subst. by rewrite IH.
Qed.

(** C9, amended. Exactly one section receives the candidates, and it is the
    last one carrying the platform's name: every other section keeps its
    [includePath], and every section keeps its place and whether it carries
    the name.  A section is appended only when none carries the name, and
    then it is the one the candidates go to; otherwise the number of sections
    is unchanged. *)
Theorem reconcile_merges_into_last_named (libPaths : list string)
    (top : fields) (d' : json) :
  reconcile platform libPaths (JObj top) = Done d' →
  (∀ j s, sections (JObj top) !! j = Some s →
     ∃ s', sections d' !! j = Some s' ∧
           named platform s' = named platform s ∧
           (last_named platform (sections (JObj top)) ≠ Some j →
            prop "includePath" s' = prop "includePath" s)) ∧
  match last_named platform (sections (JObj top)) with
  | Some j =>
      length (sections d') = length (sections (JObj top)) ∧
      ∃ fs0 fs fs',
        sections (JObj top) !! j = Some (JObj fs0) ∧
        forceBrowse fs0 = Done fs ∧
        mergePaths libPaths fs = Done fs' ∧
        sections d' !! j = Some (JObj fs')
  | None =>
      ∃ fs', mergePaths libPaths (newSection platform) = Done fs' ∧
             sections d' = sections (JObj top) ++ [JObj fs']
  end.
Proof.
  intros Hr. split.
  - intros j s Hj.
    destruct (reconcile_frame _ _ _ _ Hr) as [_ Hsecs].
    destruct (Hsecs j s Hj) as (s' & Hj' & _ & Hkeep & _ & Hip).
    exists s'. split_and!; try done.
    unfold named. by rewrite (Hkeep "name").
  - destruct (reconcile_inv _ _ _ _ Hr)
      as (secs1 & secs2 & i & fs & fs' & Hvis & Hcase & _ & Hcs & Hm & ->).
    assert (Hsec : sections (JObj (assign_field "configurations"
                     (JArr (<[i:=JObj fs']> secs2)) top)) = <[i:=JObj fs']> secs2).
    { unfold sections. by rewrite lookup_assign_eq. }
    rewrite Hsec. rewrite <- (last_named_visited _ _ _ Hvis).
    destruct Hcase as [[Hlast ->]|(Hlast & -> & -> & ->)]; rewrite Hlast.
    + split; [by rewrite length_insert, (Forall2_length _ _ _ Hvis)|].
      unfold configSectionAt in Hcs. rewrite Hlast in Hcs.
      destruct (secs1 !! i) as [s1|] eqn:Hi; [|done].
      destruct (Forall2_lookup_r _ _ _ _ _ Hvis Hi) as (s & Hs & Hvs).
      assert (Hn : named platform s = true).
      { rewrite <- (visited_named platform s s1 Hvs).
        destruct (last_named_lookup _ _ _ Hlast) as (? & ? & ?). by simplify_eq. }
      destruct Hvs as [_ Hv].
      rewrite Hn in Hv. destruct Hv as (fs0 & fs1 & -> & Hf & ->).
      injection Hcs as <-.
      exists fs0, fs1, fs'. split_and!; try done.
      apply list_lookup_insert_eq. by eapply lookup_lt_Some.
    + exists fs'. split; [done|].
      rewrite (visited_unnamed _ _ Hvis)
        by (by rewrite <- (last_named_visited _ _ _ Hvis)).
      by rewrite insert_app_r_alt, Nat.sub_diag by lia.
Qed.

End ActiveSection.

Section ConfigFile.
Context `{PathApi} `{JsonCodec}.
Variable this : context.

(** *** The configuration file *)

(** The run of lines 129-174 in terms of the document they start from. *)
Lemma addLibPaths_run libPaths w :
  match document_read this w with
  | None =>
      (addLibPaths this libPaths w).1 = Throw (UserError "arduinoFileError") ∧
      files (addLibPaths this libPaths w).2 = files w ∧
      journal (addLibPaths this libPaths w).2
        = journal w ++ [NotifyUserError "arduinoFileError"]
  | Some d =>
      journal (addLibPaths this libPaths w).2 = journal w ∧
      match reconcile (cppConfigPlatform this) libPaths d with
      | Done d' =>
          (addLibPaths this libPaths w).1 = Done () ∧
          files (addLibPaths this libPaths w).2
            = <[configFilePath this := JSON_stringify d']> (files w)
      | Throw e =>
          (addLibPaths this libPaths w).1 = Throw e ∧
          files (addLibPaths this libPaths w).2 = files w
      end
  end.
Proof.
  unfold document_read, addLibPaths.
  unfold mbind, App_bind, fileExistsSync, readFileSync, mkdirRecursivelySync,
    notifyAndThrowUserError, writeFileSync, emit, throw, mret, App_ret.
  destruct (files w !! configFilePath this) as [text|] eqn:Hfile.
  - rewrite bool_decide_eq_true_2 by eauto. rewrite Hfile.
    destruct (tryParseJSON text) as [d|]; [|done].
    destruct (truthy d); [|done].
    by destruct (reconcile (cppConfigPlatform this) libPaths d).
  - rewrite bool_decide_eq_false_2 by (by intros [? ?]).
    cbn [truthy].
    by destruct (reconcile (cppConfigPlatform this) libPaths (JObj [])).
Qed.

Lemma document_read_files w w' :
  files w' = files w → document_read this w' = document_read this w.
Proof. unfold document_read. by intros ->. Qed.

Lemma getDefaultPackageLibPaths_reads w :
  ∃ libPaths, getDefaultPackageLibPaths this w = (Done libPaths, w).
Proof.
  unfold getDefaultPackageLibPaths.
  destruct (currentBoard this) as [boardDescriptor|]; [|by eexists].
  unfold mbind, App_bind, directoryExistsSync, readdirSync, mret, App_ret.
  case_bool_decide as Hdir; [|by eexists].
  destruct Hdir as [entries ->]. by eexists.
Qed.

Lemma addLibPath_addLibPaths libraryPath w :
  ∃ libPaths,
    addLibPath this libraryPath w = addLibPaths this libPaths w ∧
    (libraryPath ≠ "" → libPaths = [libraryPath]).
Proof.
  unfold addLibPath. destruct libraryPath as [|c s].
  - destruct (getDefaultPackageLibPaths_reads w) as [libPaths Hl].
    exists libPaths. split; [|done].
    unfold mbind, App_bind at 1. by rewrite Hl.
  - by exists [String c s].
Qed.

(** C1. Reconciling twice with the same path set: when path resolution is
    stable and the text written by the first run parses back to the document
    it was rendered from, the second run leaves every file, the
    configuration file included, exactly as the first run left it, so the
    active section's [includePath] does not grow. *)
Theorem addLibPaths_idempotent (libPaths : list string) (w : world) :
  resolve_stable →
  (∀ d d', document_read this w = Some d →
           reconcile (cppConfigPlatform this) libPaths d = Done d' →
           tryParseJSON (JSON_stringify d') = Some d') →
  files (addLibPaths this libPaths (addLibPaths this libPaths w).2).2
  = files (addLibPaths this libPaths w).2.
Proof.
  intros Hst Hparse.
  pose proof (addLibPaths_run libPaths w) as Hfirst.
  pose proof (addLibPaths_run libPaths (addLibPaths this libPaths w).2) as Hsecond.
  destruct (document_read this w) as [d|] eqn:Hread.
  - destruct Hfirst as [_ Hfirst].
    destruct (reconcile (cppConfigPlatform this) libPaths d) as [d'|e] eqn:Hr.
    + destruct Hfirst as [_ Hfiles].
      assert (Hread' : document_read this (addLibPaths this libPaths w).2 = Some d').
      { unfold document_read. rewrite Hfiles, lookup_insert_eq.
        rewrite (Hparse d d') by done.
        by rewrite (reconcile_truthy _ _ _ _ Hr). }
      rewrite Hread' in Hsecond. destruct Hsecond as [_ Hsecond].
      rewrite (reconcile_again _ _ _ _ Hst Hr) in Hsecond.
      destruct Hsecond as [_ ->]. rewrite Hfiles. apply insert_insert_eq.
    + destruct Hfirst as [_ Hfiles].
      rewrite (document_read_files _ _ Hfiles), Hread in Hsecond.
      destruct Hsecond as [_ Hsecond]. rewrite Hr in Hsecond. by destruct Hsecond.
  - destruct Hfirst as (_ & Hfiles & _).
    rewrite (document_read_files _ _ Hfiles), Hread in Hsecond.
    by destruct Hsecond as (_ & ? & _).
Qed.

(** C2. A configuration file that exists and does not parse (the parser
    hands back its falsy result, or a falsy value): [addLibPath] notifies the
    user, throws the user error and leaves every file as it was; nothing is
    written. *)
Theorem addLibPath_unparsable (libraryPath text : string) (w : world) :
  files w !! configFilePath this = Some text →
  (∀ d, tryParseJSON text = Some d → truthy d = false) →
  (addLibPath this libraryPath w).1 = Throw (UserError "arduinoFileError") ∧
  files (addLibPath this libraryPath w).2 = files w ∧
  journal (addLibPath this libraryPath w).2
    = journal w ++ [NotifyUserError "arduinoFileError"].
Proof.
  intros Hfile Hparse.
  destruct (addLibPath_addLibPaths libraryPath w) as (libPaths & -> & _).
  pose proof (addLibPaths_run libPaths w) as Hrun.
  unfold document_read in Hrun. rewrite Hfile in Hrun.
  destruct (tryParseJSON text) as [d|]; [|done].
  by rewrite (Hparse d eq_refl) in Hrun.
Qed.

(** C3. A configuration file that exists and parses to [d]: [addLibPath]
    either throws and leaves every file as it was, or rewrites the
    configuration file, and no other, with the rendering of a document that
    agrees with [d] on everything outside the tool's reach: the top-level
    properties other than [configurations], the sections of another name,
    and in the sections of the platform's name everything but [includePath]
    (of the last of them) and the browse flag. *)
Theorem addLibPath_preserves (libraryPath text : string) (d : json) (w : world) :
  files w !! configFilePath this = Some text →
  tryParseJSON text = Some d →
  ((∃ e, (addLibPath this libraryPath w).1 = Throw e) ∧
   files (addLibPath this libraryPath w).2 = files w)
  ∨
  ((addLibPath this libraryPath w).1 = Done () ∧
   ∃ d', files (addLibPath this libraryPath w).2
         = <[configFilePath this := JSON_stringify d']> (files w) ∧
         preserved (cppConfigPlatform this) d d').
Proof.
  intros Hfile Hparse.
  destruct (addLibPath_addLibPaths libraryPath w) as (libPaths & -> & _).
  pose proof (addLibPaths_run libPaths w) as Hrun.
  unfold document_read in Hrun. rewrite Hfile, Hparse in Hrun.
  destruct (truthy d).
  - destruct Hrun as [_ Hrun].
    destruct (reconcile (cppConfigPlatform this) libPaths d) as [d'|e] eqn:Hr.
    + right. destruct Hrun as [Hout Hfiles]. split; [done|].
      exists d'. split; [done|]. by eapply reconcile_frame.
    + left. destruct Hrun as [Hout Hfiles]. eauto.
  - left. destruct Hrun as (Hout & Hfiles & _). eauto.
Qed.

End ConfigFile.

Section Toolchain.
Context `{PathApi}.
Variable this : context.

(** *** Invoking the toolchain *)

Lemma boardString_nonempty b : ∃ c s, boardString b = String c s.
Proof.
  unfold boardString. destruct (package_name (platform b)); simpl; eauto.
Qed.

Lemma spawn_failed command streamed args w result :
  toolchain this command args = result → result ≠ Exited 0 →
  spawn this command streamed args w
  = (Throw (SpawnRejected (failure_code result)),
     (emit (Spawned command streamed args) w).2).
Proof.
  intros Hres Hne. unfold spawn, mbind, App_bind, throw. simpl. rewrite Hres.
  destruct result as [[| |]|]; done.
Qed.

Lemma spawn_journal command streamed args w :
  journal (spawn this command streamed args w).2
  = journal w ++ [Spawned command streamed args].
Proof.
  unfold spawn, mbind, App_bind, throw, mret, App_ret. simpl.
  by destruct (toolchain this command args) as [[| |]|].
Qed.

(** C5. With no board selected the descriptor is not produced and the user
    is notified; [verify] and [upload] return normally having emitted that
    notification and nothing else, so neither spawns a process. *)
Theorem no_board_no_process (w : world) :
  currentBoard this = None →
  (getBoardDescriptorString this w).1 = Done None ∧
  journal (getBoardDescriptorString this w).2
    = journal w ++ [NotifyUserError "getBoardDescriptorError"] ∧
  (verify this w).1 = Done () ∧
  journal (verify this w).2
    = journal w ++ [NotifyUserError "getBoardDescriptorError"] ∧
  spawns (drop (length (journal w)) (journal (verify this w).2)) = 0 ∧
  (upload this w).1 = Done () ∧
  journal (upload this w).2
    = journal w ++ [NotifyUserError "getBoardDescriptorError"] ∧
  spawns (drop (length (journal w)) (journal (upload this w).2)) = 0.
Proof.
  intros Hnone. unfold verify, upload, getBoardDescriptorString.
  rewrite Hnone. unfold mbind, App_bind, notifyUserError, mret, App_ret.
  cbn [emit fst snd journal]. rewrite drop_app_length. done.
Qed.

(** C6, amended. When the toolchain fails (a non-zero exit or a launch
    failure), [installBoard] and [installLibrary] are rejected with the
    process's failure, carrying the exit code, while [verify] and [upload]
    handle the rejection themselves: they report the code on the channel's
    error line and complete normally.  Each of them spawns the process
    exactly once. *)
Theorem failed_process_outcomes (w : world) (result : process_result) :
  result ≠ Exited 0 →
  (∀ args, toolchain this (commandPath (_settings this)) args = result) →
  (∀ packageName arch version showOutput,
     (installBoard this packageName arch version showOutput w).1
       = Throw (SpawnRejected (failure_code result)) ∧
     ∃ events,
       journal (installBoard this packageName arch version showOutput w).2
         = journal w ++ events ∧ spawns events = 1) ∧
  (∀ libName version showOutput,
     (installLibrary this libName version showOutput w).1
       = Throw (SpawnRejected (failure_code result)) ∧
     ∃ events,
       journal (installLibrary this libName version showOutput w).2
         = journal w ++ events ∧ spawns events = 1) ∧
  (is_Some (currentBoard this) →
     (verify this w).1 = Done () ∧
     ∃ events,
       journal (verify this w).2 = journal w ++ events ∧ spawns events = 1 ∧
       ChannelError ("Exit with code="
                     +:+ reason_code (SpawnRejected (failure_code result))
                     +:+ EOL this) ∈ events) ∧
  (is_Some (currentBoard this) →
   commandSucceeds this "arduino.closeSerialMonitor" (port (dc this)) = true →
     (upload this w).1 = Done () ∧
     ∃ events,
       journal (upload this w).2 = journal w ++ events ∧ spawns events = 1 ∧
       ChannelError ("Exit with code="
                     +:+ reason_code (SpawnRejected (failure_code result))
                     +:+ EOL this) ∈ events).
Proof.
  intros Hne Hfail. split_and!.
  - intros packageName arch version showOutput.
    unfold installBoard, mbind, App_bind. cbn [emit].
    rewrite (spawn_failed _ _ _ _ result) by done. cbn [fst snd emit journal].
    split; [done|]. eexists. rewrite <- !app_assoc. split; [done|]. done.
  - intros libName version showOutput.
    unfold installLibrary, mbind, App_bind. cbn [emit].
    rewrite (spawn_failed _ _ _ _ result) by done. cbn [fst snd emit journal].
    split; [done|]. eexists. rewrite <- !app_assoc. split; [done|]. done.
  - intros [b Hb]. unfold verify, getBoardDescriptorString. rewrite Hb.
    destruct (boardString_nonempty b) as (c & s & ->).
    unfold mbind, App_bind, then_, mret, App_ret. cbn [emit].
    rewrite (spawn_failed _ _ _ _ result) by done. cbn [fst snd emit journal].
    split; [done|]. eexists. rewrite <- !app_assoc. split; [done|].
    split; [done|]. set_solver.
  - intros [b Hb] Hclose. unfold upload, getBoardDescriptorString. rewrite Hb.
    destruct (boardString_nonempty b) as (c & s & ->).
    unfold mbind, App_bind, then_, mret, App_ret, executeCommand.
    cbn [emit]. rewrite Hclose. cbn [emit].
    rewrite (spawn_failed _ _ _ _ result) by done. cbn [fst snd emit journal].
    split; [done|]. eexists. rewrite <- !app_assoc. split; [done|].
    split; [done|]. set_solver.
Qed.

(** C8. In every run of [upload], whatever the board, the editor and the
    toolchain do, an invocation of the process it adds to the journal comes
    after the completion of the close-serial-monitor command for the
    device's port. *)
Theorem upload_closes_monitor_first (w : world) (i : nat)
    (command : string) (streamed : bool) (args : list string) :
  (length (journal w) ≤ i)%nat →
  journal (upload this w).2 !! i = Some (Spawned command streamed args) →
  ∃ j, (length (journal w) ≤ j < i)%nat ∧
       journal (upload this w).2 !! j
       = Some (CommandCompleted "arduino.closeSerialMonitor" (port (dc this))).
Proof.
  intros Hi. unfold upload, getBoardDescriptorString.
  destruct (currentBoard this) as [b|].
  - destruct (boardString_nonempty b) as (c & s & ->).
    unfold mbind, App_bind, then_, mret, App_ret, executeCommand. cbn [emit].
    destruct (commandSucceeds this _ _); cbn [emit throw snd journal].
    + set (spawned := spawn this _ _ _ _).
      assert (Hj : ∃ last, journal
                (match spawned with
                 | (Done a, w') =>
                     emit (ChannelEnd ("Uploaded the sketch: " +:+ sketch (dc this)
                                       +:+ EOL this)) w'
                 | (Throw e, w') =>
                     emit (ChannelError ("Exit with code=" +:+ reason_code e
                                         +:+ EOL this)) w'
                 end).2 = journal spawned.2 ++ [last]).
      { destruct spawned as [[a|e] w']; eexists; done. }
      destruct Hj as [last ->]. subst spawned. rewrite spawn_journal.
      cbn [journal]. rewrite <- !app_assoc. cbn [app].
      intros Hl. exists (length (journal w) + 2).
      rewrite lookup_app_r by lia.
      replace (length (journal w) + 2 - length (journal w)) with 2 by lia.
      split; [|done].
      rewrite lookup_app_r in Hl by lia.
      destruct (i - length (journal w)) as [|[|[|[|[|n]]]]] eqn:Hn;
        simpl in Hl; try done; lia.
    + rewrite <- !app_assoc. intros Hl.
      rewrite lookup_app_r in Hl by lia.
      by destruct (i - length (journal w)) as [|[|[|n]]].
  - unfold mbind, App_bind, notifyUserError, mret, App_ret. cbn [emit snd journal].
    intros Hl. rewrite lookup_app_r in Hl by lia.
    by destruct (i - length (journal w)) as [|[|n]].
Qed.

(** C7: the run that contradicts the claim.  With the preferences document
    unreadable, the first access to [preferences] throws the file-system
    error, but leaves the cache assigned; the second access then returns an
    empty map and no error. *)
Theorem preferences_after_failed_load (fs : gmap string string)
    (dirs : gmap string (list string)) (events : list event) :
  let w := {| files := delete (preferencesPath this) fs; directories := dirs;
              journal := events; _preferences := None |} in
  (preferences this w).1 = Throw (FsError (preferencesPath this)) ∧
  (preferences this (preferences this w).2).1 = Done (Some ∅).
Proof.
  intros w. unfold preferences, loadPreferences.
  unfold mbind, App_bind, get_preferences, set_preferences, readFileSync.
  cbn [_preferences files w]. by rewrite lookup_delete_eq.
Qed.

End Toolchain.

(** ** The properties on the sample inputs *)

Section Samples.
Import Sample Reconciled.

#[local] Existing Instance paths.
#[local] Existing Instance codec.

Lemma sample_resolve_stable : resolve_stable.
Proof. apply posix_resolve_stable. Qed.

Lemma addLibPaths_idempotent_witness :
  files (addLibPaths (app (Some uno) 0) ["./lib"]
           (addLibPaths (app (Some uno) 0) ["./lib"]
              (world_with (Texts.render once_linux))).2).2
  = files (addLibPaths (app (Some uno) 0) ["./lib"]
             (world_with (Texts.render once_linux))).2.
Proof.
  apply (addLibPaths_idempotent (app (Some uno) 0) ["./lib"]
           (world_with (Texts.render once_linux)) sample_resolve_stable).
  intros d d' Hread Hrec.
  vm_compute in Hread. injection Hread as <-.
  vm_compute in Hrec. injection Hrec as <-.
  vm_compute. reflexivity.
Defined.

Lemma addLibPath_unparsable_witness :
  (addLibPath (app (Some uno) 0) "./lib" (world_with "{oops")).1
    = Throw (UserError "arduinoFileError") ∧
  files (addLibPath (app (Some uno) 0) "./lib" (world_with "{oops")).2
    = files (world_with "{oops") ∧
  journal (addLibPath (app (Some uno) 0) "./lib" (world_with "{oops")).2
    = journal (world_with "{oops") ++ [NotifyUserError "arduinoFileError"].
Proof.
  apply (addLibPath_unparsable (app (Some uno) 0) "./lib" "{oops"
           (world_with "{oops")).
  - vm_compute. reflexivity.
  - intros d Hd. vm_compute in Hd. discriminate Hd.
Defined.

Lemma addLibPath_preserves_witness :
  ((∃ e, (addLibPath (app (Some uno) 0) "./lib"
            (world_with (Texts.render once_linux))).1 = Throw e) ∧
   files (addLibPath (app (Some uno) 0) "./lib"
            (world_with (Texts.render once_linux))).2
   = files (world_with (Texts.render once_linux)))
  ∨
  ((addLibPath (app (Some uno) 0) "./lib"
      (world_with (Texts.render once_linux))).1 = Done () ∧
   ∃ d', files (addLibPath (app (Some uno) 0) "./lib"
                  (world_with (Texts.render once_linux))).2
         = <[configFilePath (app (Some uno) 0) := JSON_stringify d']>
             (files (world_with (Texts.render once_linux))) ∧
         preserved "Linux" once_linux d').
Proof.
  apply (addLibPath_preserves (app (Some uno) 0) "./lib"
           (Texts.render once_linux) once_linux
           (world_with (Texts.render once_linux))).
  - vm_compute. reflexivity.
  - vm_compute. reflexivity.
Defined.

Lemma mergePaths_dedup_ordered_witness :
  ∃ fs',
    mergePaths ["/a"; "/b"] linux_fields = Done fs' ∧
    lookup_field "includePath" fs'
      = Some (JArr (JStr <$> spec_merge ["/a"] ["/a"; "/b"])) ∧
    ["/a"] `prefix_of` spec_merge ["/a"] ["/a"; "/b"] ∧
    ∀ k, k ≠ "includePath" → lookup_field k fs' = lookup_field k linux_fields.
Proof.
  apply (mergePaths_dedup_ordered linux_fields ["/a"] ["/a"; "/b"]).
  reflexivity.
Defined.

Lemma mergePaths_creates_includePath_witness :
  ∃ fs',
    mergePaths ["./lib"; "/home/user/sketch/lib"] [("name", JStr "Linux")]
      = Done fs' ∧
    lookup_field "includePath" fs'
      = Some (JArr (JStr <$> spec_merge [] ["./lib"; "/home/user/sketch/lib"])) ∧
    NoDup (spec_merge [] ["./lib"; "/home/user/sketch/lib"]) ∧
    (∀ x, x ∈ spec_merge [] ["./lib"; "/home/user/sketch/lib"]
          ↔ x ∈ resolved <$> ["./lib"; "/home/user/sketch/lib"]) ∧
    ∀ k, k ≠ "includePath" →
         lookup_field k fs' = lookup_field k [("name", JStr "Linux")].
Proof.
  apply (mergePaths_creates_includePath [("name", JStr "Linux")]
           ["./lib"; "/home/user/sketch/lib"] sample_resolve_stable).
  left. reflexivity.
Defined.

(** With no candidate, a section without [includePath] stays without. *)
Lemma no_candidates_no_includePath :
  ∃ d', reconcile "Linux" [] bare_linux = Done d' ∧
        ∃ s, sections d' !! 0 = Some s ∧ named "Linux" s = true ∧
             prop "includePath" s = None.
Proof.
  eexists. split; [vm_compute; reflexivity|].
  eexists. split; [vm_compute; reflexivity|]. split; vm_compute; reflexivity.
Qed.

Lemma reconcile_merges_into_last_named_witness :
  (∀ j s, sections twice_linux !! j = Some s →
     ∃ s', sections twice_linux_b !! j = Some s' ∧
           named "Linux" s' = named "Linux" s ∧
           (last_named "Linux" (sections twice_linux) ≠ Some j →
            prop "includePath" s' = prop "includePath" s)) ∧
  match last_named "Linux" (sections twice_linux) with
  | Some j =>
      length (sections twice_linux_b) = length (sections twice_linux) ∧
      ∃ fs0 fs fs',
        sections twice_linux !! j = Some (JObj fs0) ∧
        forceBrowse fs0 = Done fs ∧
        mergePaths ["/b"] fs = Done fs' ∧
        sections twice_linux_b !! j = Some (JObj fs')
  | None =>
      ∃ fs', mergePaths ["/b"] (newSection "Linux") = Done fs' ∧
             sections twice_linux_b = sections twice_linux ++ [JObj fs']
  end.
Proof.
  apply (reconcile_merges_into_last_named "Linux" ["/b"]
           [("version", JNum (QArith_base.Qmake 3 1));
            ("configurations",
             JArr [section "Mac" ["/m"]; section "Linux" ["/a"]; section "Linux" []])]
           twice_linux_b).
  vm_compute. reflexivity.
Defined.

(** Of two sections named Linux, the first keeps its entries and the second
    receives the candidate. *)
Lemma second_section_receives_paths :
  first_named "Linux" (sections twice_linux) = Some 1 ∧
  reconcile "Linux" ["/b"] twice_linux = Done twice_linux_b ∧
  includePath_of <$> sections twice_linux_b !! 1 = Some [JStr "/a"] ∧
  includePath_of <$> sections twice_linux_b !! 2 = Some [JStr "/b"].
Proof. split_and!; vm_compute; reflexivity. Qed.

Lemma no_board_no_process_witness :
  (getBoardDescriptorString (app None 0) empty_world).1 = Done None ∧
  journal (getBoardDescriptorString (app None 0) empty_world).2
    = journal empty_world ++ [NotifyUserError "getBoardDescriptorError"] ∧
  (verify (app None 0) empty_world).1 = Done () ∧
  journal (verify (app None 0) empty_world).2
    = journal empty_world ++ [NotifyUserError "getBoardDescriptorError"] ∧
  spawns (drop (length (journal empty_world))
            (journal (verify (app None 0) empty_world).2)) = 0 ∧
  (upload (app None 0) empty_world).1 = Done () ∧
  journal (upload (app None 0) empty_world).2
    = journal empty_world ++ [NotifyUserError "getBoardDescriptorError"] ∧
  spawns (drop (length (journal empty_world))
            (journal (upload (app None 0) empty_world).2)) = 0.
Proof. apply (no_board_no_process (app None 0) empty_world). reflexivity. Defined.

(** [verify] completes normally although the toolchain exited with 1. *)
Lemma verify_resolves_on_failure :
  toolchain (app (Some uno) 1) (commandPath settings) [] = Exited 1 ∧
  (verify (app (Some uno) 1) empty_world).1 = Done () ∧
  (upload (app (Some uno) 1) empty_world).1 = Done ().
Proof. split_and!; vm_compute; reflexivity. Qed.

Lemma failed_process_outcomes_witness :
  (installBoard (app (Some uno) 1) "arduino" "avr" "1.6.2" true empty_world).1
    = Throw (SpawnRejected (Some 1%Z)) ∧
  (installLibrary (app (Some uno) 1) "Servo" "" true empty_world).1
    = Throw (SpawnRejected (Some 1%Z)) ∧
  (verify (app (Some uno) 1) empty_world).1 = Done () ∧
  (upload (app (Some uno) 1) empty_world).1 = Done ().
Proof.
  assert (Hne : Exited 1 ≠ Exited 0) by discriminate.
  destruct (failed_process_outcomes (app (Some uno) 1) empty_world (Exited 1) Hne
              (λ _, eq_refl)) as (Hboard & Hlib & Hverify & Hupload).
  split_and!.
  - apply Hboard.
  - apply Hlib.
  - apply Hverify. by eexists.
  - apply Hupload; [by eexists|reflexivity].
Defined.

Lemma upload_closes_monitor_first_witness :
  ∃ j, (length (journal empty_world) ≤ j < 3)%nat ∧
       journal (upload (app (Some uno) 0) empty_world).2 !! j
       = Some (CommandCompleted "arduino.closeSerialMonitor" "/dev/ttyACM0").
Proof.
  apply (upload_closes_monitor_first (app (Some uno) 0) empty_world 3
           "/opt/arduino/arduino" true
           ["--upload"; "--board"; "arduino:avr:uno"; "--port"; "/dev/ttyACM0";
            "/home/user/sketch/blink.ino"]).
  - simpl. lia.
  - vm_compute. reflexivity.
Defined.

(** The examples of the specification. *)

Example dedup_example :
  mergePaths ["/a"; "/b"] linux_fields
  = Done [("name", JStr "Linux"); ("includePath", JArr [JStr "/a"; JStr "/b"])].
Proof. vm_compute. reflexivity. Qed.

Example same_directory_once :
  mergePaths ["./lib"; "/home/user/sketch/lib"] [("name", JStr "Linux")]
  = Done [("name", JStr "Linux");
          ("includePath", JArr [JStr "/home/user/sketch/lib"])].
Proof. vm_compute. reflexivity. Qed.

Example missing_file_creates_section :
  files (addLibPath (app (Some uno) 0) "/opt/lib" empty_world).2 !! configFile
  = Some (Texts.render
            (JObj [("configurations",
                    JArr [JObj [("name", JStr "Linux");
                                ("includePath", JArr [JStr "/opt/lib"]);
                                ("browse", flagged)]])])).
Proof. vm_compute. reflexivity. Qed.

Example preferences_example :
  (preferences (app None 0)
     {| files := {[ "/home/user/.arduino15/preferences.txt" :=
                      "FOO=bar" +:+ String LF "# comment" +:+ String LF "BAZ=1"
                      +:+ String LF "" ]};
        directories := ∅; journal := []; _preferences := None |}).1
  = Done (Some {[ "FOO" := "bar"; "BAZ" := "1" ]}).
Proof. vm_compute. reflexivity. Qed.

End Samples.

(** * Further properties of the class *)

Section CommandLines.
Context `{PathApi}.
Variable this : context.

(** ** Running the toolchain *)

Lemma spawn_run command streamed args w :
  spawn this command streamed args w
  = (match toolchain this command args with
     | Exited 0 => Done ()
     | result => Throw (SpawnRejected (failure_code result))
     end,
     (emit (Spawned command streamed args) w).2).
Proof.
  unfold spawn, mbind, App_bind, throw, mret, App_ret. simpl.
  by destruct (toolchain this command args) as [[| |]|].
Qed.

(** With a board selected, [verify] never rejects: it starts the channel, shows it, spawns the toolchain once on the
    verify command line of the sketch, and closes with the end line or the
    error line according to the exit. *)
Theorem verify_command_line (w : world) (b : IBoard) :
  currentBoard this = Some b →
  (verify this w).1 = Done () ∧
  journal (verify this w).2
  = journal w ++
    [ChannelStart ("Verify sketch - " +:+ sketch (dc this));
     ChannelShow;
     Spawned (commandPath (_settings this)) true (sketch_args this "--verify" b);
     closing_line this
       (toolchain this (commandPath (_settings this))
          (sketch_args this "--verify" b))
       ("Finished verify sketch - " +:+ sketch (dc this) +:+ EOL this)].
Proof.
  intros Hb. unfold verify, getBoardDescriptorString, sketch_args. rewrite Hb.
  destruct (boardString_nonempty b) as (c & s & ->).
  unfold mbind, App_bind, then_, mret, App_ret. cbn [emit].
  rewrite spawn_run. unfold closing_line.
  destruct (toolchain this _ _) as [[| |]|];
    cbn [fst snd emit journal]; rewrite <- !app_assoc; done.
Qed.

(** With a board selected and the serial monitor closed, [upload] never
    rejects: it shows and starts the channel, has
    the monitor of the port closed, spawns the toolchain once on the upload
    command line, and closes with the end line or the error line. *)
Theorem upload_command_line (w : world) (b : IBoard) :
  currentBoard this = Some b →
  commandSucceeds this "arduino.closeSerialMonitor" (port (dc this)) = true →
  (upload this w).1 = Done () ∧
  journal (upload this w).2
  = journal w ++
    [ChannelShow;
     ChannelStart ("Upload sketch - " +:+ sketch (dc this));
     CommandCompleted "arduino.closeSerialMonitor" (port (dc this));
     Spawned (commandPath (_settings this)) true (sketch_args this "--upload" b);
     closing_line this
       (toolchain this (commandPath (_settings this))
          (sketch_args this "--upload" b))
       ("Uploaded the sketch: " +:+ sketch (dc this) +:+ EOL this)].
Proof.
  intros Hb Hclose. unfold upload, getBoardDescriptorString, sketch_args.
  rewrite Hb. destruct (boardString_nonempty b) as (c & s & ->).
  unfold mbind, App_bind, then_, mret, App_ret, executeCommand. cbn [emit].
  rewrite Hclose. cbn [emit]. rewrite spawn_run. unfold closing_line.
  destruct (toolchain this _ _) as [[| |]|];
    cbn [fst snd emit journal]; rewrite <- !app_assoc; done.
Qed.

(** When the editor fails to close the serial monitor, [upload] rejects with
    that failure after showing and starting the channel: the toolchain is not
    spawned and nothing is reported as ended. *)
Theorem upload_monitor_not_closed (w : world) (b : IBoard) :
  currentBoard this = Some b →
  commandSucceeds this "arduino.closeSerialMonitor" (port (dc this)) = false →
  (upload this w).1 = Throw (CommandRejected "arduino.closeSerialMonitor") ∧
  journal (upload this w).2
  = journal w ++ [ChannelShow;
                  ChannelStart ("Upload sketch - " +:+ sketch (dc this))].
Proof.
  intros Hb Hclose. unfold upload, getBoardDescriptorString. rewrite Hb.
  destruct (boardString_nonempty b) as (c & s & ->).
  unfold mbind, App_bind, then_, mret, App_ret, executeCommand, throw.
  cbn [emit]. rewrite Hclose. cbn [fst snd journal].
  by rewrite <- !app_assoc.
Qed.

(** [installBoard] shows and starts the channel and spawns the toolchain once
    on [--install-boards package:arch], with [:version] appended only for a
    non-empty version, streaming to the channel only when output is to be
    shown.  After exit code 0 it logs the end line and completes; otherwise
    it rejects with the exit code and logs no end line. *)
Theorem installBoard_command_line (packageName arch version : string)
    (showOutput : bool) (w : world) :
  let args := ["--install-boards";
               packageName +:+ ":" +:+ arch
               +:+ (if bool_decide (version = "") then "" else ":" +:+ version)] in
  let result := toolchain this (commandPath (_settings this)) args in
  let started := [ChannelShow;
                  ChannelStart ("Install package - " +:+ packageName +:+ "...");
                  Spawned (commandPath (_settings this)) showOutput args] in
  match result with
  | Exited 0 =>
    (installBoard this packageName arch version showOutput w).1 = Done () ∧
    journal (installBoard this packageName arch version showOutput w).2
    = journal w ++ started
      ++ [ChannelEnd ("Installed board package - " +:+ packageName +:+ EOL this)]
  | _ =>
    (installBoard this packageName arch version showOutput w).1
    = Throw (SpawnRejected (failure_code result)) ∧
    journal (installBoard this packageName arch version showOutput w).2
    = journal w ++ started
  end.
Proof.
  intros args result started. subst args result started.
  assert (Hv : version_suffix version
               = if bool_decide (version = "") then "" else ":" +:+ version).
  { by destruct version. }
  rewrite <- Hv. unfold installBoard, mbind, App_bind. cbn [emit].
  rewrite spawn_run.
  destruct (toolchain this _ _) as [[| |]|];
    cbn [fst snd emit journal]; rewrite <- !app_assoc; done.
Qed.

(** [installLibrary] does the same on [--install-library name], with
    [:version] appended only for a non-empty version. *)
Theorem installLibrary_command_line (libName version : string)
    (showOutput : bool) (w : world) :
  let args := ["--install-library";
               libName
               +:+ (if bool_decide (version = "") then "" else ":" +:+ version)] in
  let result := toolchain this (commandPath (_settings this)) args in
  let started := [ChannelShow;
                  ChannelStart ("Install library - " +:+ libName);
                  Spawned (commandPath (_settings this)) showOutput args] in
  match result with
  | Exited 0 =>
    (installLibrary this libName version showOutput w).1 = Done () ∧
    journal (installLibrary this libName version showOutput w).2
    = journal w ++ started
      ++ [ChannelEnd ("Installed libarray - " +:+ libName +:+ EOL this)]
  | _ =>
    (installLibrary this libName version showOutput w).1
    = Throw (SpawnRejected (failure_code result)) ∧
    journal (installLibrary this libName version showOutput w).2
    = journal w ++ started
  end.
Proof.
  intros args result started. subst args result started.
  assert (Hv : version_suffix version
               = if bool_decide (version = "") then "" else ":" +:+ version).
  { by destruct version. }
  rewrite <- Hv. unfold installLibrary, mbind, App_bind. cbn [emit].
  rewrite spawn_run.
  destruct (toolchain this _ _) as [[| |]|];
    cbn [fst snd emit journal]; rewrite <- !app_assoc; done.
Qed.

End CommandLines.

Section BootstrapFacts.
Context `{PathApi}.
Variable this : context.

(** ** First-run bootstrap, preference setting and uninstalling *)

Lemma swallow_done m w : (swallow m w).1 = Done ().
Proof. unfold swallow, then_. by destruct (m w) as [[a|e] w']. Qed.

(** The bootstrap operations and [setPref] swallow every failure of the
    toolchain: whatever the process does, they complete normally. *)
Theorem bootstrap_never_rejects (force : bool) (key value : string) (w : world) :
  (initialize this force w).1 = Done () ∧
  (initializeLibrary this w).1 = Done () ∧
  (setPref this key value w).1 = Done ().
Proof.
  split_and!.
  - unfold initialize, mbind, App_bind, fileExistsSync.
    destruct (force || negb _); [apply swallow_done|done].
  - unfold initializeLibrary, mbind, App_bind, fileExistsSync.
    destruct (negb _); [apply swallow_done|done].
  - apply swallow_done.
Qed.

(** Once the package index, or the library index, is in the package
    directory, the unforced bootstrap does nothing at all: no process, no
    channel output, no change to the world. *)
Theorem bootstrap_skipped_when_indexed (w : world) :
  (is_Some (files w !! path_join [packagePath (_settings this); "package_index.json"]) →
   initialize this false w = (Done (), w)) ∧
  (is_Some (files w !! path_join [packagePath (_settings this); "library_index.json"]) →
   initializeLibrary this w = (Done (), w)).
Proof.
  split; intros Hidx.
  - unfold initialize, mbind, App_bind, fileExistsSync.
    by rewrite bool_decide_eq_true_2.
  - unfold initializeLibrary, mbind, App_bind, fileExistsSync.
    by rewrite bool_decide_eq_true_2.
Qed.

(** When forced, or when the package index is missing, [initialize] installs
    the dummy package: it spawns the toolchain exactly once, on
    [--install-boards dummy:dummy] with no version and no streaming, and logs
    the end line only after exit code 0. *)
Theorem initialize_installs_dummy (force : bool) (w : world) :
  force = true ∨
    files w !! path_join [packagePath (_settings this); "package_index.json"] = None →
  journal (initialize this force w).2
  = journal w ++
    [ChannelShow;
     ChannelStart "Install package - dummy...";
     Spawned (commandPath (_settings this)) false ["--install-boards"; "dummy:dummy"]]
    ++ match toolchain this (commandPath (_settings this))
               ["--install-boards"; "dummy:dummy"] with
       | Exited 0 => [ChannelEnd ("Installed board package - dummy" +:+ EOL this)]
       | _ => []
       end.
Proof.
  intros Hrun. unfold initialize, mbind, App_bind, fileExistsSync.
  assert (Hgo : force || negb (bool_decide (is_Some (files w !!
              path_join [packagePath (_settings this); "package_index.json"])))
                = true).
  { destruct Hrun as [->|Hnone]; [done|].
    rewrite Hnone, bool_decide_eq_false_2 by (by intros [? ?]).
    by rewrite orb_true_r. }
  rewrite Hgo. unfold swallow, then_, installBoard, mbind, App_bind.
  cbn [emit]. rewrite spawn_run.
  change (version_suffix "") with "". change ("dummy" +:+ ":" +:+ "dummy" +:+ "")
    with "dummy:dummy".
  destruct (toolchain this _ _) as [[| |]|];
    cbn [fst snd emit journal files mret App_ret]; rewrite <- ?app_assoc;
    by rewrite ?app_nil_r.
Qed.

(** When the library index is missing, [initializeLibrary] installs the dummy
    library in the same way, on [--install-library dummy]. *)
Theorem initializeLibrary_installs_dummy (w : world) :
  files w !! path_join [packagePath (_settings this); "library_index.json"] = None →
  journal (initializeLibrary this w).2
  = journal w ++
    [ChannelShow;
     ChannelStart "Install library - dummy";
     Spawned (commandPath (_settings this)) false ["--install-library"; "dummy"]]
    ++ match toolchain this (commandPath (_settings this))
               ["--install-library"; "dummy"] with
       | Exited 0 => [ChannelEnd ("Installed libarray - dummy" +:+ EOL this)]
       | _ => []
       end.
Proof.
  intros Hnone. unfold initializeLibrary, mbind, App_bind, fileExistsSync.
  rewrite Hnone, bool_decide_eq_false_2 by (by intros [? ?]). cbn [negb].
  unfold swallow, then_, installLibrary, mbind, App_bind.
  cbn [emit]. rewrite spawn_run.
  change (version_suffix "") with "". change ("dummy" +:+ "") with "dummy".
  destruct (toolchain this _ _) as [[| |]|];
    cbn [fst snd emit journal files mret App_ret]; rewrite <- ?app_assoc;
    by rewrite ?app_nil_r.
Qed.

(** [setPref] spawns the toolchain once on [--pref key=value], without
    streaming its output and without a line on the channel, and leaves the
    preference cache as it is: a cached preference map does not see the new
    value. *)
Theorem setPref_command_line (key value : string) (w : world) :
  journal (setPref this key value w).2
  = journal w ++ [Spawned (commandPath (_settings this)) false
                    ["--pref"; key +:+ "=" +:+ value]] ∧
  _preferences (setPref this key value w).2 = _preferences w.
Proof.
  unfold setPref, swallow, then_. rewrite spawn_run.
  by destruct (toolchain this _ _) as [[| |]|].
Qed.



End BootstrapFacts.

Section PreferenceLines.

(** ** The lines of the preferences document *)















Lemma foldl_entries (lines : list string) (m : gmap string string) :
  foldl (λ prefs line,
           match lineRegex_exec line with
           | Some (key, value) => <[key := value]> prefs
           | None => prefs
           end) m lines
  = foldl (λ prefs kv, <[kv.1 := kv.2]> prefs) m (omap lineRegex_exec lines).
Proof.
  revert m. induction lines as [|line lines IH]; intros m; simpl; [done|].
  destruct (lineRegex_exec line) as [[k v]|]; simpl; apply IH.
Qed.

(** Last write wins: the value the map holds for a key is the value of the
    last line that yields this key, and a key no line yields is absent. *)
Theorem parsePreferences_last_wins (rawText key : string) :
  parsePreferences rawText !! key
  = snd <$> last (filter (λ kv, kv.1 = key) (preferenceEntries rawText)).
Proof.
  unfold parsePreferences, preferenceEntries. rewrite foldl_entries.
  induction (omap lineRegex_exec (split_char LF rawText)) as [|[k v] entries IH]
    using rev_ind.
  - done.
  - rewrite foldl_app, filter_app. cbn [foldl fst snd].
    destruct (decide (k = key)) as [->|Hne].
    + rewrite lookup_insert_eq, filter_cons_True, filter_nil by done.
      by rewrite last_snoc.
    + rewrite lookup_insert_ne, filter_cons_False, filter_nil by done.
      by rewrite app_nil_r.
Qed.

End PreferenceLines.

Section PreferenceStore.
Context `{PathApi}.
Variable this : context.

(** ** The preference store *)

(** The first access to [preferences] on a readable document parses it and
    caches the map; from then on every access returns that same map without
    reading anything, whatever has become of the files meanwhile. *)
Theorem preferences_loaded_once (w : world) (rawText : string)
    (fs' : gmap string string) (dirs' : gmap string (list string))
    (events' : list event) :
  files w !! preferencesPath this = Some rawText →
  _preferences w = None →
  (preferences this w).1 = Done (Some (parsePreferences rawText)) ∧
  journal (preferences this w).2 = journal w ∧
  files (preferences this w).2 = files w ∧
  let later := {| files := fs'; directories := dirs'; journal := events';
                  _preferences := _preferences (preferences this w).2 |} in
  preferences this later = (Done (Some (parsePreferences rawText)), later).
Proof.
  intros Hfile Hnone. unfold preferences, loadPreferences.
  unfold mbind, App_bind, get_preferences, set_preferences, readFileSync.
  cbn [_preferences files]. rewrite Hnone. cbn [files]. rewrite Hfile.
  done.
Qed.

End PreferenceStore.

Section DocumentShape.
Context `{PathApi}.
Variable platform : string.

(** ** Reconciling documents of the expected shape *)

Lemma forceBrowse_fixed fs :
  forceBrowse fs = Done fs →
  (∃ b, lookup_field "browse" fs = Some (JObj b) ∧
        lookup_field browseFlag b = Some (JBool false)) ∨
  (∃ a, lookup_field "browse" fs = Some (JArr a)).
Proof.
  unfold forceBrowse.
  destruct (or_default (lookup_field "browse" fs) (JObj [])) as [| | | |a|b];
    try done; intros [= Hfs].
  - right. exists a. rewrite <- Hfs at 1. apply lookup_assign_eq.
  - left. eexists. split; [rewrite <- Hfs at 1; apply lookup_assign_eq|].
    apply lookup_assign_eq.
Qed.

Lemma reconcile_settled libPaths top d' :
  reconcile platform libPaths (JObj top) = Done d' →
  Forall (settled platform) (sections d').
Proof.
  intros Hr.
  destruct (reconcile_inv _ _ _ _ Hr)
    as (secs1 & secs2 & i & fs & fs' & _ & _ & Hsettled & Hcs & Hm & ->).
  assert (Hsec : sections (JObj (assign_field "configurations"
                   (JArr (<[i:=JObj fs']> secs2)) top)) = <[i:=JObj fs']> secs2).
  { unfold sections. by rewrite lookup_assign_eq. }
  rewrite Hsec. apply Forall_insert; [done|].
  assert (Hi : secs2 !! i = Some (JObj fs) ∧ named platform (JObj fs) = true).
  { unfold configSectionAt in Hcs.
    destruct (last_named platform secs2) as [j|] eqn:Hlast; [|done].
    destruct (last_named_lookup _ _ _ Hlast) as (fs0 & Hl & Hn).
    rewrite Hl in Hcs. by simplify_eq. }
  destruct Hi as [Hi Hn].
  assert (Hn' : named platform (JObj fs') = true).
  { unfold named in *. simpl in *. by rewrite (mergePaths_other _ _ _ "name" Hm). }
  split; [done|]. rewrite Hn'. exists fs', fs'. split_and!; try done.
  pose proof (Forall_lookup_1 _ _ _ _ Hsettled Hi) as [_ Hfs].
  rewrite Hn in Hfs. destruct Hfs as (? & ? & [= <-] & Hf & [= <-]).
  eapply forceBrowse_transfer; [exact Hf|]. by eapply mergePaths_other.
Qed.

(** After a successful reconciliation every section carrying the platform's
    name, not only the one that received the paths, has
    [browse.limitSymbolsToIncludedHeaders] set to [false] (or, when [browse]
    was an array, keeps that array). *)
Theorem reconcile_forces_browse_flag (libPaths : list string) (d d' : json)
    (j : nat) (s' : json) :
  reconcile platform libPaths d = Done d' →
  sections d' !! j = Some s' →
  named platform s' = true →
  (∃ b, prop "browse" s' = Some (JObj b) ∧
        lookup_field browseFlag b = Some (JBool false)) ∨
  (∃ a, prop "browse" s' = Some (JArr a)).
Proof.
  intros Hr Hj Hn. destruct d as [| | | |items|top]; try done.
  { injection Hr as <-. done. }
  pose proof (reconcile_settled _ _ _ Hr) as Hall.
  destruct (Forall_lookup_1 _ _ _ _ Hall Hj) as [_ Hs].
  rewrite Hn in Hs. destruct Hs as (fs & fs1 & -> & Hf & [= <-]).
  by apply forceBrowse_fixed.
Qed.

Lemma typed_visited s :
  typed_section s → ∃ s', visited platform s s' ∧ typed_section s'.
Proof.
  intros (fs & -> & Hb & Hip). destruct (named platform (JObj fs)) eqn:Hn.
  - assert (Hf : ∃ b, forceBrowse fs = Done (assign_field "browse" (JObj b) fs)).
    { unfold forceBrowse. destruct Hb as [->|[b ->]]; simpl; eauto. }
    destruct Hf as [b Hf]. eexists. split.
    + split; [done|]. rewrite Hn. eauto.
    + eexists. split; [done|]. rewrite lookup_assign_eq, lookup_assign_ne by done.
      eauto.
  - exists (JObj fs). split; [split; [done|by rewrite Hn]|].
    exists fs. eauto.
Qed.

Lemma visited_typed s s' :
  typed_section s → visited platform s s' → typed_section s'.
Proof.
  intros Hs [_ Hv]. destruct (named platform s); [|by subst].
  destruct Hv as (fs & fs' & -> & Hf & ->).
  destruct Hs as (? & [= <-] & Hb & Hip).
  exists fs'. split; [done|].
  rewrite (forceBrowse_other _ _ "includePath" Hf) by done. split; [|done].
  right. unfold forceBrowse in Hf.
  destruct Hb as [Hb|[b Hb]]; rewrite Hb in Hf; simpl in Hf;
    injection Hf as <-; rewrite lookup_assign_eq; eauto.
Qed.

Lemma scanSections_typed i secs :
  Forall typed_section secs →
  ∃ secs1 cs, scanSections platform i secs = Done (secs1, cs).
Proof.
  intros Hall. revert i. induction Hall as [|s rest Hs _ IH]; intros i.
  - by eexists _, _.
  - destruct (IH (S i)) as (rest1 & later & Hrest).
    destruct (typed_visited s Hs) as (s' & [_ Hv] & _).
    destruct Hs as (fs & -> & _). simpl.
    destruct (named platform (JObj fs)).
    + destruct Hv as (? & fs' & [= <-] & -> & _). simpl. rewrite Hrest.
      by eexists _, _.
    + rewrite Hrest. by eexists _, _.
Qed.

Lemma mergePaths_absent libPaths fs :
  lookup_field "includePath" fs = None →
  mergePaths libPaths fs
  = Done (match libPaths with
          | [] => fs
          | _ :: _ => assign_field "includePath"
                        (JArr (JStr <$> spec_merge [] libPaths)) fs
          end).
Proof.
  intros Hnone. destruct libPaths as [|c rest]; [done|].
  cbn [mergePaths]. unfold addChildLibPath at 1. rewrite Hnone.
  cbn [mbind outcome_bind].
  rewrite (mergePaths_strings rest _ [resolved c]) by (by rewrite lookup_assign_eq).
  by rewrite assign_assign.
Qed.

Lemma mergePaths_typed libPaths fs :
  typed_section (JObj fs) →
  ∃ fs', mergePaths libPaths fs = Done fs' ∧ typed_section (JObj fs') ∧
         (libPaths ≠ [] →
          ∃ entries, (lookup_field "includePath" fs = None ∧ entries = [] ∨
                      lookup_field "includePath" fs = Some (JArr (JStr <$> entries))) ∧
                     lookup_field "includePath" fs'
                     = Some (JArr (JStr <$> spec_merge entries libPaths))).
Proof.
  intros (? & [= <-] & Hb & [Hnone|[entries Hip]]).
  - rewrite (mergePaths_absent _ _ Hnone). eexists. split; [done|].
    destruct libPaths as [|c rest].
    + split; [|done]. exists fs. eauto.
    + split.
      * eexists. split; [done|].
        rewrite lookup_assign_ne, lookup_assign_eq by done. eauto.
      * intros _. exists []. rewrite lookup_assign_eq. eauto.
  - rewrite (mergePaths_strings _ _ _ Hip). eexists. split; [done|]. split.
    + eexists. split; [done|].
      rewrite lookup_assign_ne, lookup_assign_eq by done. eauto.
    + intros _. exists entries. rewrite lookup_assign_eq. eauto.
Qed.

Lemma newSection_typed : typed_section (JObj (newSection platform)).
Proof.
  eexists. split; [done|]. split.
  - right. by eexists.
  - right. by exists [].
Qed.

(** Reconciliation keeps the configuration format: on a document of the
    expected shape it never throws, and what it writes is again of the
    expected shape. *)
Theorem reconcile_typed (libPaths : list string) (d : json) :
  typed_document d →
  ∃ d', reconcile platform libPaths d = Done d' ∧ typed_document d'.
Proof.
  intros (top & -> & Hcfg & Hall).
  assert (Hsecs : or_default (lookup_field "configurations" top) (JArr [])
                  = JArr (sections (JObj top))).
  { unfold sections. by destruct Hcfg as [->|[secs ->]]. }
  destruct (scanSections_typed 0 _ Hall) as (secs1 & cs & Hscan).
  assert (Htyped1 : Forall typed_section secs1).
  { pose proof (scanSections_visited _ _ _ _ _ Hscan) as Hvis.
    clear -Hvis Hall. induction Hvis as [|s s1 rest rest1 Hv _ IH]; [done|].
    inversion_clear Hall. constructor; eauto using visited_typed. }
  pose proof (scanSections_configSection _ _ _ _ _ Hscan) as Hcs.
  unfold reconcile. rewrite Hsecs, Hscan. cbn [mbind outcome_bind].
  assert (Hdone : ∀ secs2 i fs,
            Forall typed_section secs2 → typed_section (JObj fs) →
            ∃ d', (fs' ← mergePaths libPaths fs;
                   Done (JObj (assign_field "configurations"
                                 (JArr (<[i:=JObj fs']> secs2)) top)))
                  = Done d' ∧ typed_document d').
  { intros secs2 i fs Hall2 Hfs.
    destruct (mergePaths_typed libPaths fs Hfs) as (fs' & -> & Hfs' & _).
    eexists. split; [done|]. eexists. split; [done|]. split.
    - right. rewrite lookup_assign_eq. eauto.
    - unfold sections. rewrite lookup_assign_eq. cbn [or_default truthy].
      destruct (decide (i < length secs2)%nat).
      + by apply Forall_insert.
      + by rewrite list_insert_ge by lia. }
  destruct cs as [[i fs]|].
  - apply Hdone; [done|].
    unfold configSectionAt in Hcs.
    destruct (last_named platform secs1) as [j|]; [|done].
    destruct (secs1 !! j) as [[| | | | |fs0]|] eqn:Hj; try done.
    injection Hcs as -> ->.
    by apply (Forall_lookup_1 _ _ _ _ Htyped1 Hj).
  - apply Hdone; [|apply newSection_typed].
    apply Forall_app. split; [done|]. constructor; [apply newSection_typed|done].
Qed.

Lemma spec_merge_covers entries candidates c :
  resolve_stable → c ∈ candidates →
  ∃ x, x ∈ spec_merge entries candidates ∧ resolved x = resolved c.
Proof.
  intros Hst. revert entries.
  induction candidates as [|c0 rest IH]; intros entries; [by intros ?%elem_of_nil|].
  intros [->|Hin]%elem_of_cons; [|by apply IH].
  cbn [spec_merge foldl].
  assert (Hnow : ∃ x, x ∈ spec_add entries c0 ∧ resolved x = resolved c0).
  { unfold spec_add. case_bool_decide as Hex.
    - apply Exists_exists in Hex as (e & ? & ?). eauto.
    - exists (resolved c0). split; [|apply Hst].
      apply elem_of_app. right. by left. }
  destruct Hnow as (x & Hx & Heq). exists x. split; [|done].
  destruct (spec_merge_prefix (spec_add entries c0) rest) as [more Hmore].
  unfold spec_merge in Hmore. rewrite Hmore. apply elem_of_app. by left.
Qed.

(** On a document of the expected shape, after a successful reconciliation
    the last section carrying the platform's name lists every candidate: for
    each candidate its [includePath] has an entry that resolves to the same
    path. *)
Theorem reconcile_lists_candidates (libPaths : list string) (d d' : json) :
  resolve_stable →
  typed_document d →
  reconcile platform libPaths d = Done d' →
  ∃ i s',
    last_named platform (sections d') = Some i ∧
    sections d' !! i = Some s' ∧
    ∀ c, c ∈ libPaths →
         ∃ x, JStr x ∈ includePath_of s' ∧ resolved x = resolved c.
Proof.
  intros Hst (top & -> & _ & Hall) Hr.
  destruct (reconcile_inv _ _ _ _ Hr)
    as (secs1 & secs2 & i & fs & fs' & Hvis & Hcase & _ & Hcs & Hm & ->).
  assert (Hsec : sections (JObj (assign_field "configurations"
                   (JArr (<[i:=JObj fs']> secs2)) top)) = <[i:=JObj fs']> secs2).
  { unfold sections. by rewrite lookup_assign_eq. }
  rewrite Hsec.
  assert (Hi : secs2 !! i = Some (JObj fs) ∧ named platform (JObj fs) = true ∧
               last_named platform secs2 = Some i).
  { unfold configSectionAt in Hcs.
    destruct (last_named platform secs2) as [j|] eqn:Hlast; [|done].
    destruct (last_named_lookup _ _ _ Hlast) as (fs0 & Hl & Hn).
    rewrite Hl in Hcs. by simplify_eq. }
  destruct Hi as (Hi & Hn & Hlast).
  assert (Hn' : named platform (JObj fs') = true).
  { unfold named in *. simpl in *. by rewrite (mergePaths_other _ _ _ "name" Hm). }
  assert (Hfs : typed_section (JObj fs)).
  { assert (Htyped1 : Forall typed_section secs1).
    { clear -Hvis Hall. induction Hvis as [|s s1 rest rest1 Hv _ IH]; [done|].
      inversion_clear Hall. constructor; eauto using visited_typed. }
    destruct Hcase as [[_ ->]|(_ & -> & -> & ->)].
    - by apply (Forall_lookup_1 _ _ _ _ Htyped1 Hi).
    - apply newSection_typed. }
  exists i, (JObj fs'). split_and!.
  - rewrite (last_named_insert _ _ _ (JObj fs)) by congruence. done.
  - apply list_lookup_insert_eq. by eapply lookup_lt_Some.
  - intros c Hc.
    destruct (mergePaths_typed libPaths fs Hfs) as (fs'' & Hm' & _ & Hlist).
    rewrite Hm in Hm'. injection Hm' as <-.
    destruct Hlist as (entries & _ & Hip); [by intros ->; apply elem_of_nil in Hc|].
    destruct (spec_merge_covers entries libPaths c Hst Hc) as (x & Hx & Heq).
    exists x. split; [|done]. unfold includePath_of. simpl. rewrite Hip.
    by apply list_elem_of_fmap_2.
Qed.

Lemma scanSections_null i secs :
  JNull ∈ secs → ∃ what, scanSections platform i secs = Throw (TypeError what).
Proof.
  revert i. induction secs as [|s rest IH]; intros i; [by intros ?%elem_of_nil|].
  intros Hin. destruct s as [| | | | |fs]; [by eexists|..];
    (apply elem_of_cons in Hin as [?|Hin]; [done|]);
    destruct (IH (S i) Hin) as [what Hrest]; simpl;
    try (rewrite Hrest; by eexists).
  destruct (named platform (JObj fs)); [|rewrite Hrest; by eexists].
  unfold forceBrowse.
  destruct (or_default (lookup_field "browse" fs) (JObj []));
    simpl; rewrite ?Hrest; by eexists.
Qed.

(** A [null] among the configurations, or a [configurations] that is neither
    falsy nor an array, makes the reconciliation throw a type error. *)
Lemma reconcile_ill_typed libPaths top :
  JNull ∈ sections (JObj top) ∨
  (∃ c, lookup_field "configurations" top = Some c ∧ truthy c = true ∧
        ∀ secs, c ≠ JArr secs) →
  ∃ what, reconcile platform libPaths (JObj top) = Throw (TypeError what).
Proof.
  unfold reconcile, sections. intros [Hnull|(c & Hc & Ht & Harr)].
  - destruct (or_default (lookup_field "configurations" top) (JArr []));
      try by apply elem_of_nil in Hnull.
    destruct (scanSections_null 0 _ Hnull) as [what ->]. by eexists.
  - rewrite Hc. simpl. rewrite Ht.
    destruct c; try (by eexists). by destruct (Harr items).
Qed.

End DocumentShape.

Section ConfigFileMore.
Context `{PathApi} `{JsonCodec}.
Variable this : context.

(** ** More on the configuration file *)

(** [getDefaultPackageLibPaths] never throws and changes nothing: without a
    selected board, or without a [cores] directory under the board's
    platform root, it yields no path; otherwise it yields, in the order of
    the directory listing, the normalised path of every entry of [cores]. *)
Theorem getDefaultPackageLibPaths_lists_cores (w : world) :
  getDefaultPackageLibPaths this w
  = (Done match currentBoard this with
          | None => []
          | Some b =>
              let cores := path_join [rootBoardPath (platform b); "cores"] in
              match directories w !! cores with
              | None => []
              | Some entries =>
                  (λ coreLib,
                     path_normalize
                       (path_join [rootBoardPath (platform b); "cores"; coreLib]))
                  <$> entries
              end
          end, w).
Proof.
  unfold getDefaultPackageLibPaths.
  destruct (currentBoard this) as [b|]; [|done].
  unfold mbind, App_bind, directoryExistsSync, readdirSync, mret, App_ret.
  cbn zeta.
  destruct (directories w !! path_join [rootBoardPath (platform b); "cores"])
    as [entries|] eqn:Hdir.
  - rewrite bool_decide_eq_true_2 by eauto. by rewrite Hdir.
  - by rewrite bool_decide_eq_false_2 by (by intros [? ?]).
Qed.

(** [addLibPath] is all or nothing on the file store and never runs the
    toolchain: either it throws and every file is as before, or it completes
    and exactly the configuration file has been rewritten. *)
Theorem addLibPath_config_or_nothing (libraryPath : string) (w : world) :
  spawns (drop (length (journal w)) (journal (addLibPath this libraryPath w).2)) = 0 ∧
  (((∃ e, (addLibPath this libraryPath w).1 = Throw e) ∧
    files (addLibPath this libraryPath w).2 = files w)
   ∨
   ((addLibPath this libraryPath w).1 = Done () ∧
    ∃ d', files (addLibPath this libraryPath w).2
          = <[configFilePath this := JSON_stringify d']> (files w))).
Proof.
  destruct (addLibPath_addLibPaths this libraryPath w) as (libPaths & -> & _).
  pose proof (addLibPaths_run this libPaths w) as Hrun.
  destruct (document_read this w) as [d|].
  - destruct Hrun as [-> Hrun]. rewrite drop_ge by lia. split; [done|].
    destruct (reconcile (cppConfigPlatform this) libPaths d) as [d'|e];
      destruct Hrun as [Hout Hfiles]; [right|left]; eauto.
  - destruct Hrun as (Hout & Hfiles & ->). rewrite drop_app_length.
    split; [done|]. left. eauto.
Qed.


(** A configuration file that parses to an object with a [null] among its
    configurations, or whose [configurations] is neither falsy nor an array:
    [addLibPath] throws a type error, writes nothing, and, unlike for an
    unparsable file, does not notify the user. *)
Theorem addLibPath_ill_typed_document (libraryPath text : string)
    (top : fields) (w : world) :
  files w !! configFilePath this = Some text →
  tryParseJSON text = Some (JObj top) →
  JNull ∈ sections (JObj top) ∨
  (∃ c, lookup_field "configurations" top = Some c ∧ truthy c = true ∧
        ∀ secs, c ≠ JArr secs) →
  (∃ what, (addLibPath this libraryPath w).1 = Throw (TypeError what)) ∧
  files (addLibPath this libraryPath w).2 = files w ∧
  journal (addLibPath this libraryPath w).2 = journal w.
Proof.
  intros Hfile Hparse Hill.
  destruct (addLibPath_addLibPaths this libraryPath w) as (libPaths & -> & _).
  pose proof (addLibPaths_run this libPaths w) as Hrun.
  unfold document_read in Hrun. rewrite Hfile, Hparse in Hrun. cbn [truthy] in Hrun.
  destruct Hrun as [Hj Hrun].
  destruct (reconcile_ill_typed (cppConfigPlatform this) libPaths top Hill)
    as [what Hr].
  rewrite Hr in Hrun. destruct Hrun as [Hout Hfiles]. eauto.
Qed.

End ConfigFileMore.

(** ** The further properties on the sample inputs *)

Section MoreSampleRuns.
Import Sample Reconciled MoreSamples.

#[local] Existing Instance paths.
#[local] Existing Instance Reconciled.codec.

Lemma verify_command_line_witness :
  (verify (app (Some uno) 0) empty_world).1 = Done () ∧
  journal (verify (app (Some uno) 0) empty_world).2
  = journal empty_world ++
    [ChannelStart ("Verify sketch - " +:+ "blink.ino");
     ChannelShow;
     Spawned "/opt/arduino/arduino" true
       (sketch_args (app (Some uno) 0) "--verify" uno);
     closing_line (app (Some uno) 0)
       (toolchain (app (Some uno) 0) "/opt/arduino/arduino"
          (sketch_args (app (Some uno) 0) "--verify" uno))
       ("Finished verify sketch - " +:+ "blink.ino" +:+ String LF "")].
Proof. apply (verify_command_line (app (Some uno) 0) empty_world uno). reflexivity. Defined.

Lemma upload_command_line_witness :
  (upload (app (Some uno) 0) empty_world).1 = Done () ∧
  journal (upload (app (Some uno) 0) empty_world).2
  = journal empty_world ++
    [ChannelShow;
     ChannelStart ("Upload sketch - " +:+ "blink.ino");
     CommandCompleted "arduino.closeSerialMonitor" "/dev/ttyACM0";
     Spawned "/opt/arduino/arduino" true
       (sketch_args (app (Some uno) 0) "--upload" uno);
     closing_line (app (Some uno) 0)
       (toolchain (app (Some uno) 0) "/opt/arduino/arduino"
          (sketch_args (app (Some uno) 0) "--upload" uno))
       ("Uploaded the sketch: " +:+ "blink.ino" +:+ String LF "")].
Proof.
  apply (upload_command_line (app (Some uno) 0) empty_world uno); reflexivity.
Defined.

Lemma upload_monitor_not_closed_witness :
  (upload monitor_stuck empty_world).1
    = Throw (CommandRejected "arduino.closeSerialMonitor") ∧
  journal (upload monitor_stuck empty_world).2
  = journal empty_world ++
    [ChannelShow; ChannelStart ("Upload sketch - " +:+ "blink.ino")].
Proof.
  apply (upload_monitor_not_closed monitor_stuck empty_world uno); reflexivity.
Defined.

Lemma bootstrap_skipped_when_indexed_witness :
  initialize (app None 1) false indexed_world = (Done (), indexed_world) ∧
  initializeLibrary (app None 1) indexed_world = (Done (), indexed_world).
Proof.
  destruct (bootstrap_skipped_when_indexed (app None 1) indexed_world)
    as [Hboards Hlibraries].
  split.
  - apply Hboards. vm_compute. eexists. reflexivity.
  - apply Hlibraries. vm_compute. eexists. reflexivity.
Defined.

Lemma initialize_installs_dummy_witness :
  journal (initialize (app None 1) false empty_world).2
  = journal empty_world ++
    [ChannelShow;
     ChannelStart "Install package - dummy...";
     Spawned "/opt/arduino/arduino" false ["--install-boards"; "dummy:dummy"]]
    ++ match toolchain (app None 1) "/opt/arduino/arduino"
               ["--install-boards"; "dummy:dummy"] with
       | Exited 0 => [ChannelEnd ("Installed board package - dummy"
                                  +:+ String LF "")]
       | _ => []
       end.
Proof.
  apply (initialize_installs_dummy (app None 1) false empty_world).
  right. vm_compute. reflexivity.
Defined.

Lemma initializeLibrary_installs_dummy_witness :
  journal (initializeLibrary (app None 1) empty_world).2
  = journal empty_world ++
    [ChannelShow;
     ChannelStart "Install library - dummy";
     Spawned "/opt/arduino/arduino" false ["--install-library"; "dummy"]]
    ++ match toolchain (app None 1) "/opt/arduino/arduino"
               ["--install-library"; "dummy"] with
       | Exited 0 => [ChannelEnd ("Installed libarray - dummy" +:+ String LF "")]
       | _ => []
       end.
Proof.
  apply (initializeLibrary_installs_dummy (app None 1) empty_world).
  vm_compute. reflexivity.
Defined.



Lemma preferences_loaded_once_witness :
  (preferences (app None 1) indexed_world).1
    = Done (Some (parsePreferences preferences_text)) ∧
  journal (preferences (app None 1) indexed_world).2 = journal indexed_world ∧
  files (preferences (app None 1) indexed_world).2 = files indexed_world ∧
  let later := {| files := ∅; directories := ∅; journal := [];
                  _preferences :=
                    _preferences (preferences (app None 1) indexed_world).2 |} in
  preferences (app None 1) later
  = (Done (Some (parsePreferences preferences_text)), later).
Proof.
  apply (preferences_loaded_once (app None 1) indexed_world preferences_text ∅ ∅ []).
  - vm_compute. reflexivity.
  - reflexivity.
Defined.

(** The later line wins for [board]; the comment yields nothing. *)
Example preferences_text_parsed :
  parsePreferences preferences_text
  = {[ "sketchbook.path" := "/home/user/Arduino"; "board" := "mega" ]}.
Proof. vm_compute. reflexivity. Qed.

Lemma reconcile_forces_browse_flag_witness :
  (∃ b, prop "browse" (JObj [("name", JStr "Linux");
                             ("includePath", JArr [JStr "/a"]);
                             ("browse", flagged)]) = Some (JObj b) ∧
        lookup_field browseFlag b = Some (JBool false)) ∨
  (∃ a, prop "browse" (JObj [("name", JStr "Linux");
                             ("includePath", JArr [JStr "/a"]);
                             ("browse", flagged)]) = Some (JArr a)).
Proof.
  apply (reconcile_forces_browse_flag "Linux" ["/b"] twice_linux twice_linux_b 1).
  - vm_compute. reflexivity.
  - reflexivity.
  - vm_compute. reflexivity.
Defined.

Lemma section_typed name includePath : typed_section (section name includePath).
Proof.
  eexists. split; [reflexivity|]. split; [by left|]. right. by exists includePath.
Qed.

Lemma once_linux_typed : typed_document once_linux.
Proof.
  eexists. split; [reflexivity|]. split; [right; by eexists|].
  repeat constructor; apply section_typed.
Qed.

Lemma reconcile_typed_witness :
  ∃ d', reconcile "Linux" ["./lib"] once_linux = Done d' ∧ typed_document d'.
Proof. apply (reconcile_typed "Linux" ["./lib"] once_linux once_linux_typed). Defined.

Lemma reconcile_lists_candidates_witness :
  ∃ i s',
    last_named "Linux" (sections once_linux_lib) = Some i ∧
    sections once_linux_lib !! i = Some s' ∧
    ∀ c, c ∈ ["./lib"] →
         ∃ x, JStr x ∈ includePath_of s' ∧ resolved x = resolved c.
Proof.
  apply (reconcile_lists_candidates "Linux" ["./lib"] once_linux once_linux_lib
           sample_resolve_stable once_linux_typed).
  vm_compute. reflexivity.
Defined.


Lemma addLibPath_ill_typed_document_witness :
  (∃ what,
     (addLibPath (H0 := MoreSamples.codec) (app (Some uno) 0) "./lib"
        (world_with (Texts.render (JObj null_section)))).1
     = Throw (TypeError what)) ∧
  files (addLibPath (H0 := MoreSamples.codec) (app (Some uno) 0) "./lib"
           (world_with (Texts.render (JObj null_section)))).2
  = files (world_with (Texts.render (JObj null_section))) ∧
  journal (addLibPath (H0 := MoreSamples.codec) (app (Some uno) 0) "./lib"
             (world_with (Texts.render (JObj null_section)))).2
  = journal (world_with (Texts.render (JObj null_section))).
Proof.
  apply (addLibPath_ill_typed_document (H0 := MoreSamples.codec)
           (app (Some uno) 0) "./lib" (Texts.render (JObj null_section))
           null_section (world_with (Texts.render (JObj null_section)))).
  - vm_compute. reflexivity.
  - vm_compute. reflexivity.
  - left. vm_compute. right. left.
Defined.

End MoreSampleRuns.
